(** * The Layout core of idom ([idom/core/layout.py])

    A shallow embedding of the reconciler: the element-state table, the
    global event-handler table, the rendering queue, and the coroutine that
    drives an element's render under its life cycle hook.

    Python objects that are shared and mutated are kept in stores and named
    by their address; everything else is a plain value.  A task of the event
    loop is run without another task of the Layout interleaved inside it. *)

From stdpp Require Import gmap strings list fin_maps pretty.

Set Warnings "-register-all,-clear-no-such-hyp".

(** ** Data model *)

(** The address of a Python object ([id(obj)]). *)
Abbreviation ref := nat.

(** [AbstractElement]: the Layout only ever reads [element.id] and calls
    [element.render()]; the latter is host code, see [Host] below. *)
Record AbstractElement := mkElement { id : string }.

Global Instance AbstractElement_eq_dec : EqDecision AbstractElement.
Proof. solve_decision. Defined.

(** A plain callable of the host (a function or a lambda), by name. *)
Record Callable := mkCallable { callable_name : string }.

Global Instance Callable_eq_dec : EqDecision Callable.
Proof. solve_decision. Defined.

(** Modelled from the spec: [EventHandler] ([idom/core/events.py] is not part
    of the sources at hand).  An addressable bundle of callbacks: a stable id,
    the callbacks in the order they were added, and the parameter-capture
    directives that go into the serialized descriptor. *)
Record EventHandler := mkEventHandler {
  handler_id : string;
  callbacks : list Callable;
  capture : gmap string string;
}.

Global Instance EventHandler_eq_dec : EqDecision EventHandler.
Proof. solve_decision. Defined.

(** Values found in models.  A dictionary made by host code is an object in
    the store [objects] ([VDict]); the [model] dictionary of an
    [ElementState] is named by the address of that state ([VModel]); a
    dictionary that the Layout builds and hands on without anyone mutating it
    afterwards is a literal ([VLit]). *)
Inductive value :=
| VStr (s : string)
| VObject (shown : string)
| VCallable (f : Callable)
| VHandler (h : EventHandler)
| VElement (e : AbstractElement)
| VList (l : list value)
| VTuple (l : list value)
| VDict (r : ref)
| VModel (s : ref)
| VLit (d : gmap string value).

(** [callable(v)]: functions, and event handlers (which define [__call__]). *)
Definition callable (v : value) : bool :=
  match v with
  | VCallable _ | VHandler _ => true
  | _ => false
  end.

(** [isinstance(v, EventHandler)] *)
Definition is_EventHandler (v : value) : bool :=
  match v with VHandler _ => true | _ => false end.

(** [isinstance(v, Mapping)] *)
Definition is_Mapping (v : value) : bool :=
  match v with VDict _ | VModel _ | VLit _ => true | _ => false end.

(** [class ElementState(NamedTuple)].  The tuple itself is immutable; its
    [model], [event_handler_ids] and [child_elements_ids] are mutated in
    place, which here rewrites the cell of the state in the store [heap]. *)
Record ElementState := mkElementState {
  model : gmap string value;
  element_obj : AbstractElement;
  event_handler_ids : gset string;
  child_elements_ids : list string;
  life_cycle_hook : ref;
}.

Definition with_model (d : gmap string value) (st : ElementState) :=
  mkElementState d (element_obj st) (event_handler_ids st)
                 (child_elements_ids st) (life_cycle_hook st).
Definition with_event_handler_ids (ids : gset string) (st : ElementState) :=
  mkElementState (model st) (element_obj st) ids
                 (child_elements_ids st) (life_cycle_hook st).
Definition with_child_elements_ids (l : list string) (st : ElementState) :=
  mkElementState (model st) (element_obj st) (event_handler_ids st)
                 l (life_cycle_hook st).

(** Exceptions.  [DanglingRef] is not Python's: it is what the embedding
    answers when asked for an object at an address where the store has none,
    which no run of the program does. *)
Inductive exn :=
| KeyError (key : string)
| TypeError
| AttributeError
| CancelledError
| HostError (msg : string)
| DanglingRef (r : ref).

(** What the Layout calls on a [LifeCycleHook], as a log. *)
Inductive LifeCycleEvent :=
| WillRender (hook : ref)
| DidRender (hook : ref)
| WillUnmount (hook : ref).

Global Instance LifeCycleEvent_eq_dec : EqDecision LifeCycleEvent.
Proof. solve_decision. Defined.

(** ** FutureQueue *)

(** How an [asyncio.Future] ended. *)
Inductive settled (R : Type) :=
| Finished (result : R)
| Failed (error : exn)
| Cancelled.
Arguments Finished {R}.
Arguments Failed {R}.
Arguments Cancelled {R}.

(** An [asyncio.Future] wrapping an awaitable: its address, what it runs and,
    once it is done, how it ended. *)
Record Future (A R : Type) := mkFuture {
  future_id : nat;
  awaitable : A;
  future_state : option (settled R);
}.
Arguments mkFuture {A R}.
Arguments future_id {A R}.
Arguments awaitable {A R}.
Arguments future_state {A R}.

(** [class FutureQueue].  [_scheduled] holds the [wrapper()] coroutines that
    [put] handed to the loop and that have not run yet; [_done] is the
    [asyncio.Queue] of completed futures, first in first out. *)
Record FutureQueue (A R : Type) := mkFutureQueue {
  _scheduled : list A;
  _pending : gmap nat (Future A R);
  _done : list (Future A R);
  next_future : nat;
}.
Arguments mkFutureQueue {A R}.
Arguments _scheduled {A R}.
Arguments _pending {A R}.
Arguments _done {A R}.
Arguments next_future {A R}.

(** ** The state of a Layout and of the objects it works on *)

Record World := mkWorld {
  _root : AbstractElement;
  _event_handlers : gmap string EventHandler;
  _element_states : gmap string ref;
  _rendering_queue : FutureQueue AbstractElement value;
  heap : gmap ref ElementState;
  objects : gmap ref (gmap string value);
  hook_stack : list ref;
  trace : list LifeCycleEvent;
  next_ref : ref;
}.

Definition set_event_handlers (f : gmap string EventHandler → gmap string EventHandler)
    (w : World) : World :=
  mkWorld (_root w) (f (_event_handlers w)) (_element_states w) (_rendering_queue w)
          (heap w) (objects w) (hook_stack w) (trace w) (next_ref w).
Definition set_element_states (f : gmap string ref → gmap string ref) (w : World) : World :=
  mkWorld (_root w) (_event_handlers w) (f (_element_states w)) (_rendering_queue w)
          (heap w) (objects w) (hook_stack w) (trace w) (next_ref w).
Definition set_rendering_queue
    (f : FutureQueue AbstractElement value → FutureQueue AbstractElement value)
    (w : World) : World :=
  mkWorld (_root w) (_event_handlers w) (_element_states w) (f (_rendering_queue w))
          (heap w) (objects w) (hook_stack w) (trace w) (next_ref w).
Definition set_heap (f : gmap ref ElementState → gmap ref ElementState) (w : World) : World :=
  mkWorld (_root w) (_event_handlers w) (_element_states w) (_rendering_queue w)
          (f (heap w)) (objects w) (hook_stack w) (trace w) (next_ref w).
Definition set_objects
    (f : gmap ref (gmap string value) → gmap ref (gmap string value)) (w : World) : World :=
  mkWorld (_root w) (_event_handlers w) (_element_states w) (_rendering_queue w)
          (heap w) (f (objects w)) (hook_stack w) (trace w) (next_ref w).
Definition set_hook_stack (f : list ref → list ref) (w : World) : World :=
  mkWorld (_root w) (_event_handlers w) (_element_states w) (_rendering_queue w)
          (heap w) (objects w) (f (hook_stack w)) (trace w) (next_ref w).
Definition log (ev : LifeCycleEvent) (w : World) : World :=
  mkWorld (_root w) (_event_handlers w) (_element_states w) (_rendering_queue w)
          (heap w) (objects w) (hook_stack w) (trace w ++ [ev]) (next_ref w).
Definition set_next_ref (f : ref → ref) (w : World) : World :=
  mkWorld (_root w) (_event_handlers w) (_element_states w) (_rendering_queue w)
          (heap w) (objects w) (hook_stack w) (trace w) (f (next_ref w)).

(** How a call ends: it returns, it raises, or the fuel that bounds the
    recursion of the embedding ran out. *)
Inductive result (A : Type) :=
| Ok (a : A) (w : World)
| Raised (e : exn) (w : World)
| OutOfFuel.
Arguments Ok {A}.
Arguments Raised {A}.
Arguments OutOfFuel {A}.

Definition bind {A B} (r : result A) (k : A → World → result B) : result B :=
  match r with
  | Ok a w => k a w
  | Raised e w => Raised e w
  | OutOfFuel => OutOfFuel
  end.

Notation "'let!' x ',' w ':=' r 'in' k" :=
  (bind r (λ x w, k))
  (at level 10, x name, w name, r at level 100, k at level 200,
   format "'[v' 'let!'  x ','  w  ':='  r  'in' '/' k ']'").

(** ** Host code *)

(** The coroutine behind [element.render()], seen from whoever drives it with
    [next]: a resumption runs host code, which may read the hook-runtime
    stack and read and write the host's own objects, until that code yields
    to the event loop, returns ([StopIteration(value)]) or raises. *)
Inductive step_of (G : Type) :=
| Yield (rest : G)
| Return (v : value)
| Raise (e : exn).
Arguments Yield {G}.
Arguments Return {G}.
Arguments Raise {G}.

Inductive gen :=
| Gen (resume : list ref → gmap ref (gmap string value) →
                gmap ref (gmap string value) * step_of gen).

(** The parts of the program that are not the Layout's:
    - [element_render e] is the coroutine [e.render().__await__()];
    - [shown v] is [str(v)] for the objects whose text is the interpreter's
      business;
    - [handler_call h data] is [await h(data)], [EventHandler.__call__]
      (not in the sources at hand): it runs the callbacks of [h], which may do
      anything to the program's state, and returns or raises. *)
Record Host := mkHost {
  element_render : AbstractElement → gen;
  shown : value → string;
  handler_call : EventHandler → list value → World → result unit;
}.

(** ** [class FutureQueue] *)

Module FutureQueue.
Section queue.
Context {A R : Type}.

(** [FutureQueue.__init__] *)
Definition init : FutureQueue A R := mkFutureQueue [] ∅ [] 0.

(** [put]: hands [wrapper()] to the loop and returns. *)
Definition put (a : A) (q : FutureQueue A R) : FutureQueue A R :=
mkFutureQueue (_scheduled q ++ [a]) (_pending q) (_done q) (next_future q).

(** The first half of [wrapper()], run by the loop:
[future = asyncio.ensure_future(awaitable)],
[self._pending[id(future)] = future], and then it waits for it. *)
Definition wrapper_start (q : FutureQueue A R) : option (nat * FutureQueue A R) :=
match _scheduled q with
| [] => None
| a :: rest =>
  let fid := next_future q in
  Some (fid, mkFutureQueue rest (<[fid := mkFuture fid a None]> (_pending q))
                           (_done q) (S fid))
end.

(** The second half of [wrapper()], once the future [fid] has ended in [o]
(the [finally] clause): [del self._pending[id(future)]],
[await self._done.put(future)]. *)
Definition wrapper_finish (fid : nat) (o : settled R) (q : FutureQueue A R)
: option (FutureQueue A R) :=
match _pending q !! fid with
| None => None
| Some f =>
  Some (mkFutureQueue (_scheduled q) (delete fid (_pending q))
                      (_done q ++ [mkFuture fid (awaitable f) (Some o)])
                      (next_future q))
end.

(** What [await future] gives for a future that ended in [o]. *)
Definition outcome (o : settled R) : R + exn :=
match o with
| Finished v => inl v
| Failed e => inr e
| Cancelled => inr CancelledError
end.

(** [await future] on a future that is in the done-channel. *)
Definition await_done (f : Future A R) : option (R + exn) :=
outcome <$> future_state f.

(** [get]: [future = await self._done.get()], [return await future].
[None] is the caller kept waiting. *)
Definition get (q : FutureQueue A R) : option ((R + exn) * FutureQueue A R) :=
match _done q with
| [] => None
| f :: rest =>
  match await_done f with
  | None => None
  | Some r =>
      Some (r, mkFutureQueue (_scheduled q) (_pending q) rest (next_future q))
  end
end.

(** What the loop and the callers of a queue can do to it. *)
Inductive action :=
| Put (a : A)
| Start
| Finish (fid : nat) (o : settled R)
| Get.

(** One step of a queue; a [Get] that is served reports the future it took
off the done-channel. *)
Inductive step : FutureQueue A R → action → option (Future A R) →
             FutureQueue A R → Prop :=
| step_put a q :
step q (Put a) None (put a q)
| step_start q fid q' :
wrapper_start q = Some (fid, q') →
step q Start None q'
| step_finish q fid o q' :
wrapper_finish fid o q = Some q' →
step q (Finish fid o) None q'
| step_get q f rest r q' :
_done q = f :: rest →
get q = Some (r, q') →
step q Get (Some f) q'.

(** A run of the queue from [q]: what was done to it, the latest first,
each [Get] with the future it was served. *)
Inductive run (q : FutureQueue A R)
: list (action * option (Future A R)) → FutureQueue A R → Prop :=
| run_nil : run q [] q
| run_step history q1 a d q2 :
run q history q1 →
step q1 a d q2 →
run q ((a, d) :: history) q2.

(** The futures that the [get]s of a run delivered, and the awaitables that
its [put]s registered. *)
Definition delivered (history : list (action * option (Future A R)))
: list (Future A R) :=
omap snd history.
Definition registered (history : list (action * option (Future A R))) : list A :=
omap (λ p, match p.1 with Put a => Some a | _ => None end) history.
(** What holds of every queue reached from [init]: what is scheduled,
pending or done was registered by a [put]; a pending future sits under
its own address and has not ended; a done future has ended and is no
longer pending; no future is both waiting in the done-channel and
delivered, or there twice. *)
Record inv (history : list (action * option (Future A R))) (q : FutureQueue A R) : Prop := mkInv {
inv_scheduled : ∀ a, a ∈ _scheduled q → a ∈ registered history;
inv_pending : ∀ k f, _pending q !! k = Some f →
future_id f = k ∧ k < next_future q ∧ future_state f = None
∧ awaitable f ∈ registered history;
inv_done : ∀ f, f ∈ _done q →
future_id f < next_future q ∧ is_Some (future_state f)
∧ awaitable f ∈ registered history ∧ _pending q !! future_id f = None;
inv_delivered : ∀ f, f ∈ delivered history →
future_id f < next_future q ∧ _pending q !! future_id f = None;
inv_nodup : NoDup (future_id <$> (_done q ++ delivered history));
}.

End queue.
Arguments action : clear implicits.
End FutureQueue.

(** ** [LifeCycleHook] *)

(** Modelled from the spec: the methods of [LifeCycleHook] that the Layout
    calls ([idom/core/hooks.py] is not part of the sources at hand).
    [set_current] and [unset_current] push and pop the hook on the
    hook-runtime stack; the three life cycle callbacks are recorded in the
    [trace]. *)
Definition set_current (hook : ref) (w : World) : World :=
  set_hook_stack (cons hook) w.
Definition unset_current (hook : ref) (w : World) : World :=
  set_hook_stack tail w.
Definition element_will_render (hook : ref) (w : World) : World :=
  log (WillRender hook) w.
Definition element_did_render (hook : ref) (w : World) : World :=
  log (DidRender hook) w.
Definition element_will_unmount (hook : ref) (w : World) : World :=
  log (WillUnmount hook) w.

(** Modelled from the spec: [EventHandler()], [EventHandler.add] and
    [EventHandler.serialize].  A new handler takes its id from its address. *)
Definition EventHandler_new (w : World) : EventHandler * World :=
  (mkEventHandler (pretty (next_ref w)) [] ∅, set_next_ref S w).
Definition add (h : EventHandler) (f : value) : option EventHandler :=
  match f with
  | VCallable c => Some (mkEventHandler (handler_id h) (callbacks h ++ [c]) (capture h))
  | _ => None
  end.
Definition serialize (h : EventHandler) : value :=
  VLit (<["target" := VStr (handler_id h)]> (VObject <$> capture h)).

(** ** Mappings *)

(** [dict(m)], [m.items()]: the entries of a mapping, [None] when [m] is not
    a mapping or its address is not in the store. *)
Definition items (m : value) (w : World) : option (gmap string value) :=
  match m with
  | VDict r => objects w !! r
  | VModel s => model <$> heap w !! s
  | VLit d => Some d
  | _ => None
  end.

(** [m.pop(k)].  A literal is not an object that can be changed in place; no
    model that the Layout resolves has one where it pops. *)
Definition pop (m : value) (k : string) (w : World) : result value :=
  match m with
  | VDict r =>
      match objects w !! r with
      | None => Raised (DanglingRef r) w
      | Some d =>
          match d !! k with
          | None => Raised (KeyError k) w
          | Some x => Ok x (set_objects (<[r := delete k d]>) w)
          end
      end
  | VModel s =>
      match heap w !! s with
      | None => Raised (DanglingRef s) w
      | Some st =>
          match model st !! k with
          | None => Raised (KeyError k) w
          | Some x => Ok x (set_heap (alter (λ st, with_model (delete k (model st)) st) s) w)
          end
      end
  | _ => Raised AttributeError w
  end.

(** ** [_render_with_life_cycle_hook] *)

(** Where the generator-based coroutine [_render_with_life_cycle_hook] stands:
    created and not yet run, or parked at its [yield], which sits inside the
    [try] block. *)
Inductive coroutine :=
| NotStarted (element_state : ElementState)
| AtYield (element_state : ElementState) (rest : gen).

(** What a [send] or a [throw] into the coroutine gives its caller. *)
Inductive turn :=
| Suspended (c : coroutine)
| Returned (v : value)
| Thrown (e : exn).

(** One turn of the [while True] loop, from [set_current()] on. *)
Definition loop_turn (element_state : ElementState) (g : gen) (w : World) : turn * World :=
  let hook := life_cycle_hook element_state in
  let w := set_current hook w in
  match g with
  | Gen resume =>
      match resume (hook_stack w) (objects w) with
      | (o, Yield rest) =>
          (* [yield next(gen)]: the coroutine parks inside [try] *)
          (Suspended (AtYield element_state rest), set_objects (λ _, o) w)
      | (o, Return v) =>
          (* [except StopIteration as error: return error.value], [finally] *)
          (Returned v, unset_current hook (set_objects (λ _, o) w))
      | (o, Raise e) =>
          (* [finally], and the exception goes on *)
          (Thrown e, unset_current hook (set_objects (λ _, o) w))
      end
  end.

(** [coroutine.throw(e)]: [e] is raised where the coroutine stands. *)
Definition throw (c : coroutine) (e : exn) (w : World) : turn * World :=
  match c with
  | NotStarted _ => (Thrown e, w)
  | AtYield element_state _ =>
      (Thrown e, unset_current (life_cycle_hook element_state) w)
  end.

(** [await _render_with_life_cycle_hook(element_state)] with nothing else run
    by the loop while the coroutine is parked: the turns of [loop_turn], each
    resumption leaving the [try] block through [finally] first. *)
Fixpoint drive (element_state : ElementState) (g : gen) (w : World) : result value :=
  let hook := life_cycle_hook element_state in
  let w := set_current hook w in
  match g with
  | Gen resume =>
      match resume (hook_stack w) (objects w) with
      | (o, Yield rest) =>
          drive element_state rest (unset_current hook (set_objects (λ _, o) w))
      | (o, Return v) => Ok v (unset_current hook (set_objects (λ _, o) w))
      | (o, Raise e) => Raised e (unset_current hook (set_objects (λ _, o) w))
      end
  end.

Section Layout.
Context (host : Host).

(** [gen = element_state.element_obj.render().__await__()] is the first
    thing the coroutine does when it is first resumed. *)
Definition send (c : coroutine) (w : World) : turn * World :=
  match c with
  | NotStarted element_state =>
      loop_turn element_state
                (element_render host (element_obj element_state)) w
  | AtYield element_state rest =>
      (* the [yield] expression returns, the [try] block ends: [finally] *)
      loop_turn element_state rest
                (unset_current (life_cycle_hook element_state) w)
  end.

Definition _render_with_life_cycle_hook (element_state : ElementState) : coroutine :=
  NotStarted element_state.

Definition await (c : coroutine) (w : World) : result value :=
  match c with
  | NotStarted element_state =>
      drive element_state (element_render host (element_obj element_state)) w
  | AtYield element_state rest =>
      drive element_state rest (unset_current (life_cycle_hook element_state) w)
  end.

(** [str(child)] *)
Definition str (v : value) : string :=
  match v with
  | VStr s => s
  | VObject s => s
  | _ => shown host v
  end.

(** *** [class Layout] *)

(** [ElementState(model={}, element_obj=element, event_handler_ids=set(),
    child_elements_ids=[], life_cycle_hook=LifeCycleHook(element, self.update))]:
    a new hook and a new state, at the next two addresses. *)
Definition _create_element_state (element : AbstractElement) (w : World) : ref * World :=
  let hook := next_ref w in
  let s := S hook in
  (s, set_heap (<[s := mkElementState ∅ element ∅ [] hook]>)
               (set_next_ref (λ _, S s) w)).

(** [for handler_id in ...: del self._event_handlers[handler_id]] *)
Fixpoint del_event_handlers (ids : list string) (w : World) : result unit :=
  match ids with
  | [] => Ok tt w
  | handler_id :: ids =>
      match _event_handlers w !! handler_id with
      | None => Raised (KeyError handler_id) w
      | Some _ => del_event_handlers ids (set_event_handlers (delete handler_id) w)
      end
  end.

Definition _clear_element_state_event_handlers (s : ref) (w : World) : result unit :=
  match heap w !! s with
  | None => Raised (DanglingRef s) w
  | Some element_state =>
      let! _, w := del_event_handlers (elements (event_handler_ids element_state)) w in
      Ok tt (set_heap (alter (with_event_handler_ids ∅) s) w)
  end.

(** [_unmount_element_state] and [_unmount_element_state_children].  The
    [for] loop walks the list by position and looks at the list as it is at
    each turn, as Python does; [unmount_children_from] is the loop from
    position [i] on. *)
Fixpoint _unmount_element_state (fuel : nat) (s : ref) (w : World) : result unit :=
  match fuel with
  | 0 => OutOfFuel
  | S fuel =>
      match heap w !! s with
      | None => Raised (DanglingRef s) w
      | Some element_state =>
          let w := element_will_unmount (life_cycle_hook element_state) w in
          let! _, w := _clear_element_state_event_handlers s w in
          let! _, w := _unmount_element_state_children fuel s w in
          let e_id := id (element_obj element_state) in
          match _element_states w !! e_id with
          | None => Raised (KeyError e_id) w
          | Some _ => Ok tt (set_element_states (delete e_id) w)
          end
      end
  end
with _unmount_element_state_children (fuel : nat) (s : ref) (w : World) : result unit :=
  match fuel with
  | 0 => OutOfFuel
  | S fuel =>
      let! _, w := unmount_children_from fuel s 0 w in
      Ok tt (set_heap (alter (with_child_elements_ids []) s) w)
  end
with unmount_children_from (fuel : nat) (s : ref) (i : nat) (w : World) : result unit :=
  match fuel with
  | 0 => OutOfFuel
  | S fuel =>
      match heap w !! s with
      | None => Raised (DanglingRef s) w
      | Some element_state =>
          match child_elements_ids element_state !! i with
          | None => Ok tt w
          | Some e_id =>
              match _element_states w !! e_id with
              | None => Raised (KeyError e_id) w
              | Some child =>
                  let! _, w := _unmount_element_state fuel child w in
                  unmount_children_from fuel s (S i) w
              end
          end
      end
  end.

Definition _reset_element_state (fuel : nat) (s : ref) (w : World) : result unit :=
  let! _, w := _clear_element_state_event_handlers s w in
  _unmount_element_state_children fuel s w.

(** [_render_model_event_handlers].  [lift_attribute] is the body of the
    loop over [list(attrs.items())]; [handlers_by_id] is
    [{h.id: h for h in handlers.values()}], which needs every value to have
    an [id]. *)
Definition lift_attribute (attrs : value) (k : string) (v : value)
    (acc : result (gmap string value)) : result (gmap string value) :=
  let! handlers, w := acc in
  if callable v then
    if negb (is_EventHandler v) then
      let '(h, w) := EventHandler_new w in
      let! f, w := pop attrs k w in
      match add h f with
      | Some h => Ok (<[k := VHandler h]> handlers) w
      | None => Raised TypeError w
      end
    else
      let! h, w := pop attrs k w in
      Ok (<[k := h]> handlers) w
  else Ok handlers w.

Definition handlers_by_id (handlers : gmap string value)
    : option (gmap string EventHandler) :=
  map_fold (λ _ v acc,
              match v, acc with
              | VHandler h, Some by_id => Some (<[handler_id h := h]> by_id)
              | _, _ => None
              end) (Some ∅) handlers.

Definition serialized (v : value) : value :=
  match v with VHandler h => serialize h | _ => v end.

Definition _render_model_event_handlers (s : ref) (model : gmap string value)
    (w : World) : result value :=
  let! handlers, w :=
    match model !! "eventHandlers" with
    | None => Ok ∅ w
    | Some m =>
        match items m w with
        | None => Raised TypeError w
        | Some d => Ok d w
        end
    end in
  let! handlers, w :=
    match model !! "attributes" with
    | None => Ok handlers w
    | Some attrs =>
        match items attrs w with
        | None => Raised AttributeError w
        | Some snapshot => map_fold (lift_attribute attrs) (Ok handlers w) snapshot
        end
    end in
  match handlers_by_id handlers with
  | None => Raised AttributeError w
  | Some event_handlers_by_id =>
      match heap w !! s with
      | None => Raised (DanglingRef s) w
      | Some _ =>
          let w := set_heap (alter (with_event_handler_ids ∅) s) w in
          let w := set_heap (alter (λ st, with_event_handler_ids
                                 (event_handler_ids st ∪ dom event_handlers_by_id) st) s) w in
          let w := set_event_handlers (λ t, event_handlers_by_id ∪ t) w in
          Ok (VLit (serialized <$> handlers)) w
      end
  end.

(** [children if isinstance(children, (list, tuple)) else [children]] *)
Definition as_children (children : value) : list value :=
  match children with
  | VList l | VTuple l => l
  | _ => [children]
  end.

(** [_render_element], [_render_model] and [_render_model_children];
    [render_children_loop] is the [for] loop of the latter over the children
    still to resolve, with the list [resolved_children] built so far. *)
Fixpoint _render_element (fuel : nat) (element : AbstractElement) (w : World)
    : result value :=
  match fuel with
  | 0 => OutOfFuel
  | S fuel =>
      let w :=
        if decide (id element ∈ dom (_element_states w)) then w
        else
          let '(s, w) := _create_element_state element w in
          set_element_states (<[id element := s]>) w in
      match _element_states w !! id element with
      | None => Raised (KeyError (id element)) w
      | Some s =>
          match heap w !! s with
          | None => Raised (DanglingRef s) w
          | Some element_state =>
              let hook := life_cycle_hook element_state in
              let w := element_will_render hook w in
              let! _, w := _clear_element_state_event_handlers s w in
              let! _, w := _unmount_element_state_children fuel s w in
              let! raw_model, w :=
                await (_render_with_life_cycle_hook element_state) w in
              let raw_model :=
                match raw_model with
                | VElement _ =>
                    VLit (<["tagName" := VStr "div"]>
                            (<["children" := VList [raw_model]]> ∅))
                | _ => raw_model
                end in
              let! resolved_model, w := _render_model fuel s raw_model w in
              let w := set_heap (alter (with_model ∅) s) w in
              match items resolved_model w with
              | None => Raised TypeError w
              | Some d =>
                  let w := set_heap (alter (λ st, with_model (d ∪ model st) st) s) w in
                  let w := element_did_render hook w in
                  Ok (VModel s) w
              end
          end
      end
  end
with _render_model (fuel : nat) (s : ref) (model : value) (w : World) : result value :=
  match fuel with
  | 0 => OutOfFuel
  | S fuel =>
      match items model w with
      | None => Raised TypeError w
      | Some model =>
          let! event_handlers, w := _render_model_event_handlers s model w in
          let model := <["eventHandlers" := event_handlers]> model in
          match model !! "children" with
          | None => Ok (VLit model) w
          | Some children =>
              let! resolved_children, w :=
                _render_model_children fuel s children w in
              Ok (VLit (<["children" := VList resolved_children]> model)) w
          end
      end
  end
with _render_model_children (fuel : nat) (s : ref) (children : value) (w : World)
    : result (list value) :=
  match fuel with
  | 0 => OutOfFuel
  | S fuel => render_children_loop fuel s (as_children children) [] w
  end
with render_children_loop (fuel : nat) (s : ref) (children : list value)
    (resolved_children : list value) (w : World) : result (list value) :=
  match fuel with
  | 0 => OutOfFuel
  | S fuel =>
      match children with
      | [] => Ok resolved_children w
      | child :: children =>
          if is_Mapping child then
            let! m, w := _render_model fuel s child w in
            render_children_loop fuel s children (resolved_children ++ [m]) w
          else
            match child with
            | VElement e =>
                match heap w !! s with
                | None => Raised (DanglingRef s) w
                | Some _ =>
                    let w :=
                      set_heap (alter (λ st, with_child_elements_ids
                                  (child_elements_ids st ++ [id e]) st) s) w in
                    let! m, w := _render_element fuel e w in
                    render_children_loop fuel s children (resolved_children ++ [m]) w
                end
            | _ =>
                render_children_loop fuel s children
                                     (resolved_children ++ [VStr (str child)]) w
            end
      end
  end.

(** [LayoutEvent] *)
Record LayoutEvent := mkLayoutEvent { target : string; data : list value }.

(** [update]: [self._rendering_queue.put(self._render_element(element))];
    the coroutine [self._render_element(element)] is named by its element. *)
Definition update (element : AbstractElement) (w : World) : World :=
  set_rendering_queue (FutureQueue.put element) w.

(** [trigger] *)
Definition trigger (event : LayoutEvent) (w : World) : result unit :=
  match _event_handlers w !! target event with
  | None => Ok tt w
  | Some handler => handler_call host handler (data event) w
  end.

(** [render]: [await self._rendering_queue.get()], then
    [return self._element_states[self._root.id].model]; [None] is the
    caller kept waiting in [get]. *)
Definition render (w : World) : option (result value) :=
  match FutureQueue.get (_rendering_queue w) with
  | None => None
  | Some (inr e, q) => Some (Raised e (set_rendering_queue (λ _, q) w))
  | Some (inl _, q) =>
      let w := set_rendering_queue (λ _, q) w in
      match _element_states w !! id (_root w) with
      | None => Some (Raised (KeyError (id (_root w))) w)
      | Some s =>
          match heap w !! s with
          | None => Some (Raised (DanglingRef s) w)
          | Some _ => Some (Ok (VModel s) w)
          end
      end
  end.

(** [Layout.__init__], and the two resources of a Layout as they are once
    both have been set up: the queue with the render of the root put in it,
    and the table with the state of the root. *)
Definition Layout_init (root : AbstractElement)
    (host_objects : gmap ref (gmap string value)) : World :=
  mkWorld root ∅ ∅ FutureQueue.init ∅ host_objects [] [] 0.

Definition _rendering_queue_enter (w : World) : World :=
  set_rendering_queue (λ _, FutureQueue.put (_root w) FutureQueue.init) w.

Definition _element_states_enter (w : World) : World :=
  let '(root_element_state, w) := _create_element_state (_root w) w in
  set_element_states (λ _, {[ id (_root w) := root_element_state ]}) w.

Definition Layout_enter (w : World) : World :=
  _element_states_enter (_rendering_queue_enter w).

(** [_element_states], on the way out:
    [self._unmount_element_state(root_element_state)]. *)
Definition _element_states_exit (fuel : nat) (root_element_state : ref) (w : World)
    : result unit :=
  _unmount_element_state fuel root_element_state w.

(** The loop runs a render that is pending in the queue, to its end, and
    the [wrapper()] around it moves its future to the done-channel. *)
Definition run_pending (fuel : nat) (fid : nat) (w : World) : option World :=
  match _pending (_rendering_queue w) !! fid with
  | None => None
  | Some f =>
      match _render_element fuel (awaitable f) w with
      | Ok v w =>
          q ← FutureQueue.wrapper_finish fid (Finished v) (_rendering_queue w);
          Some (set_rendering_queue (λ _, q) w)
      | Raised e w =>
          q ← FutureQueue.wrapper_finish fid (Failed e) (_rendering_queue w);
          Some (set_rendering_queue (λ _, q) w)
      | OutOfFuel => None
      end
  end.

(** The loop starts the next [wrapper()] that [put] scheduled. *)
Definition start_scheduled (w : World) : option (nat * World) :=
  '(fid, q) ← FutureQueue.wrapper_start (_rendering_queue w);
  Some (fid, set_rendering_queue (λ _, q) w).
End Layout.

(** ** What the properties are stated with *)

(** [post P r]: the call that ended in [r] left a world in which [P] holds. *)
Definition post {A} (P : World → Prop) (r : result A) : Prop :=
match r with
| Ok _ w | Raised _ w => P w
| OutOfFuel => True
end.

(** Addresses are handed out in increasing order: every state in the store,
    and its hook, has an address below the next one to be given. *)
Definition allocated (w : World) : Prop :=
∀ s st, heap w !! s = Some st → s < next_ref w ∧ life_cycle_hook st < next_ref w.

(** What no step of a render or of an unmount undoes.  The root and the
    queue stay; addresses only grow; a state stays in the store, and stays
    the state of its element with its hook; a state that is new, and its
    hook, have new addresses; the table points an id to the state it pointed
    to or to a new one; the trace only grows. *)
Record evolves (w w' : World) : Prop := mkEvolves {
  ev_root : _root w' = _root w;
  ev_queue : _rendering_queue w' = _rendering_queue w;
  ev_next : next_ref w ≤ next_ref w';
  ev_heap : ∀ s st, heap w !! s = Some st →
    ∃ st', heap w' !! s = Some st' ∧ element_obj st' = element_obj st
           ∧ life_cycle_hook st' = life_cycle_hook st;
  ev_new : ∀ s st', heap w' !! s = Some st' →
    is_Some (heap w !! s) ∨ (next_ref w ≤ s ∧ next_ref w ≤ life_cycle_hook st');
  ev_table : ∀ x s, _element_states w' !! x = Some s →
    _element_states w !! x = Some s ∨ next_ref w ≤ s;
  ev_trace : trace w `prefix_of` trace w';
}.

(** A world that a well-allocated world [w] can turn into. *)
Definition after (w w' : World) : Prop := evolves w w' ∧ allocated w'.


(** A mounted subtree of the Layout, as the table and the store hold it:
    the state at address [s], as it is in the store, over the subtrees of
    the elements that its [child_elements_ids] names, in that order. *)
Inductive mounted :=
| Mounted (s : ref) (st : ElementState) (children : list mounted).

Definition root_ref (t : mounted) : ref :=
match t with Mounted s _ _ => s end.
Definition root_state (t : mounted) : ElementState :=
match t with Mounted _ st _ => st end.
Definition root_id (t : mounted) : string := id (element_obj (root_state t)).

(** The states of a subtree with their addresses, parents before children
    and children in their order: the order in which they are unmounted. *)
Fixpoint nodes (t : mounted) : list (ref * ElementState) :=
match t with
| Mounted s st children => (s, st) :: (children ≫= nodes)
end.

Definition refs (ns : list (ref * ElementState)) : list ref := fst <$> ns.
Definition element_ids (ns : list (ref * ElementState)) : list string :=
(λ n, id (element_obj n.2)) <$> ns.
Definition hooks (ns : list (ref * ElementState)) : list ref :=
(λ n, life_cycle_hook n.2) <$> ns.
Definition handler_ids (ns : list (ref * ElementState)) : list string :=
ns ≫= (λ n, elements (event_handler_ids n.2)).

(** The world holds the subtree: each state is in the store at its address
    and in the table under the id of its element, and its children are the
    roots of its subtrees. *)
Inductive shape (w : World) : mounted → Prop :=
| shape_node s st children :
    heap w !! s = Some st →
    _element_states w !! id (element_obj st) = Some s →
    child_elements_ids st = root_id <$> children →
    Forall (shape w) children →
    shape w (Mounted s st children).

(** A list of states with their addresses is that of distinct elements with
    hooks and handlers of their own, all the handlers registered. *)
Record distinct (w : World) (ns : list (ref * ElementState)) : Prop := mkDistinct {
  distinct_refs : NoDup (refs ns);
  distinct_ids : NoDup (element_ids ns);
  distinct_hooks : NoDup (hooks ns);
  distinct_handler_ids : NoDup (handler_ids ns);
  handlers_registered : ∀ i, i ∈ handler_ids ns → is_Some (_event_handlers w !! i);
}.

Definition well_mounted (w : World) (t : mounted) : Prop :=
shape w t ∧ distinct w (nodes t).

(** What a state is left as once it has been unmounted. *)
Definition cleared (st : ElementState) : ElementState :=
with_child_elements_ids [] (with_event_handler_ids ∅ st).

(** The world [w'] is the world [w] with the states [ns] unmounted, in that
    order. *)
Record unmounted (ns : list (ref * ElementState)) (w w' : World) : Prop := mkUnmounted {
  un_root : _root w' = _root w;
  un_queue : _rendering_queue w' = _rendering_queue w;
  un_objects : objects w' = objects w;
  un_hook_stack : hook_stack w' = hook_stack w;
  un_next_ref : next_ref w' = next_ref w;
  un_trace : trace w' = trace w ++ (WillUnmount <$> hooks ns);
  un_event_handlers : ∀ i,
    _event_handlers w' !! i
    = if decide (i ∈ handler_ids ns) then None else _event_handlers w !! i;
  un_element_states : ∀ x,
    _element_states w' !! x
    = if decide (x ∈ element_ids ns) then None else _element_states w !! x;
  un_heap : ∀ s,
    heap w' !! s = if decide (s ∈ refs ns) then cleared <$> heap w !! s else heap w !! s;
}.

(** What unmounting a well mounted subtree comes to, with fuel to spare. *)
Definition unmounts (t : mounted) : Prop :=
∀ w, shape w t → distinct w (nodes t) →
  ∃ n w', unmounted (nodes t) w w'
    ∧ ∀ fuel, n ≤ fuel → _unmount_element_state fuel (root_ref t) w = Ok tt w'.

(** ** Example programs *)

Module Examples.
(** Host code that makes a dictionary: it takes the next free address of
    the host's store. *)
Definition alloc (d : gmap string value) (o : gmap ref (gmap string value))
    : gmap ref (gmap string value) * ref :=
  let r := fresh (dom o) in (<[r := d]> o, r).

(** A render that builds its model and returns without awaiting. *)
Definition returning
    (build : gmap ref (gmap string value) → gmap ref (gmap string value) * value)
    : gen :=
  Gen (λ _ o, let '(o, v) := build o in (o, Return v)).

(** A render that awaits once before it builds its model. *)
Definition awaiting_once
    (build : gmap ref (gmap string value) → gmap ref (gmap string value) * value)
    : gen :=
  Gen (λ _ o, (o, Yield (returning build))).

Definition quiet_host (program : AbstractElement → gen) : Host :=
  mkHost program (λ _, "<object>") (λ _ _ w, Ok tt w).

Definition f := mkCallable "f".
Definition g := mkCallable "g".

(** [{"tagName": "div", "attributes": {"onClick": f},
      "children": [{"tagName": "span", "attributes": {"onClick": g}}, "x"]}] *)
Definition nested_handlers (o : gmap ref (gmap string value)) :=
  let '(o, inner_attrs) := alloc {[ "onClick" := VCallable g ]} o in
  let '(o, inner) :=
    alloc (<["tagName" := VStr "span"]> {[ "attributes" := VDict inner_attrs ]}) o in
  let '(o, outer_attrs) := alloc {[ "onClick" := VCallable f ]} o in
  let '(o, outer) :=
    alloc (<["tagName" := VStr "div"]>
             (<["attributes" := VDict outer_attrs]>
                {[ "children" := VList [VDict inner; VStr "x"] ]})) o in
  (o, VDict outer).

Definition root := mkElement "root".
Definition child := mkElement "child".

Definition nested_host : Host := quiet_host (λ _, returning nested_handlers).

(** The root renders [{"tagName": "div", "children": [child]}] and the
    child [{"tagName": "span", "attributes": {"onClick": g}}]. *)
Definition parent_model (o : gmap ref (gmap string value)) :=
  let '(o, m) :=
    alloc (<["tagName" := VStr "div"]> {[ "children" := VList [VElement child] ]}) o in
  (o, VDict m).
Definition child_model (o : gmap ref (gmap string value)) :=
  let '(o, attrs) := alloc {[ "onClick" := VCallable g ]} o in
  let '(o, m) :=
    alloc (<["tagName" := VStr "span"]> {[ "attributes" := VDict attrs ]}) o in
  (o, VDict m).
Definition family_host : Host :=
  quiet_host (λ e, if decide (e = root) then returning parent_model
                   else returning child_model).

(** The root awaits once while it renders. *)
Definition awaiting_host : Host := quiet_host (λ _, awaiting_once parent_model).

(** A host whose handlers fail. *)
Definition failing_host : Host :=
  mkHost (λ _, returning parent_model) (λ _, "<object>")
         (λ _ _ w, Raised (HostError "boom") w).

(** The Layout of [root], its resources set up, over an empty host store. *)
Definition entered : World := Layout_enter (Layout_init root ∅).

(** A queue that was put one awaitable, whose future then ran, succeeded
    and was taken by a [get]. *)
Definition done_future : Future string nat := mkFuture 0 "a" (Some (Finished 7)).
Definition queue_history : list (FutureQueue.action string nat * option (Future string nat)) :=
  [(FutureQueue.Get, Some done_future);
   (FutureQueue.Finish 0 (Finished 7), None);
   (FutureQueue.Start, None);
   (FutureQueue.Put "a", None)].
Definition queue_put : FutureQueue string nat := mkFutureQueue ["a"] ∅ [] 0.
Definition queue_started : FutureQueue string nat :=
  mkFutureQueue [] {[ 0 := mkFuture 0 "a" None ]} [] 1.
Definition queue_finished : FutureQueue string nat := mkFutureQueue [] ∅ [done_future] 1.
Definition queue_served : FutureQueue string nat := mkFutureQueue [] ∅ [] 1.
(** The family, once the root has been rendered from [entered]. *)
Definition mounted_family : World :=
match _render_element family_host 10 root entered with
| Ok _ w => w
| _ => entered
end.

(** The Layout of the family once the loop has started the render of the
    root and run it to its end. *)
Definition root_rendered : World :=
default entered
  ('(fid, w) ← start_scheduled entered; run_pending family_host 10 fid w).
(** A button: [{"tagName": "button", "attributes": {"onClick": f, "onKey":
    <handler key>, "title": "t"}, "eventHandlers": {"onClick": <handler
    old-click>, "onBlur": <handler blur>}}], with [attributes] at address 0,
    [eventHandlers] at 1 and the model at 2. *)
Definition button_attributes : gmap string value :=
  {[ "onClick" := VCallable f;
     "onKey" := VHandler (mkEventHandler "key" [g] ∅);
     "title" := VStr "t" ]}.
Definition button_handlers : gmap string value :=
  {[ "onClick" := VHandler (mkEventHandler "old-click" [g] ∅);
     "onBlur" := VHandler (mkEventHandler "blur" [g] ∅) ]}.
Definition button_model : gmap string value :=
  {[ "tagName" := VStr "button"; "attributes" := VDict 0; "eventHandlers" := VDict 1 ]}.
Definition button_world : World :=
  Layout_enter (Layout_init root {[ 0 := button_attributes; 1 := button_handlers;
                                    2 := button_model ]}).
(** The states of the mounted family and the tree they form. *)
Definition family_root_state : ElementState :=
default (mkElementState ∅ root ∅ [] 0) (heap mounted_family !! 1).
Definition family_child_state : ElementState :=
default (mkElementState ∅ child ∅ [] 0) (heap mounted_family !! 3).
Definition family_tree : mounted :=
Mounted 1 family_root_state [Mounted 3 family_child_state []].

(** The family with its root unmounted. *)
Definition unmounted_family : World :=
match _unmount_element_state 10 1 mounted_family with
| Ok _ w => w
| _ => mounted_family
end.

(** The root renders [{"tagName": "div", "children": [child, child]}]: the
    same element twice. *)
Definition twins_model (o : gmap ref (gmap string value)) :=
let '(o, m) :=
  alloc (<["tagName" := VStr "div"]>
           {[ "children" := VList [VElement child; VElement child] ]}) o in
(o, VDict m).
Definition twins_host : Host :=
quiet_host (λ e, if decide (e = root) then returning twins_model
                 else returning child_model).
Definition mounted_twins : World :=
match _render_element twins_host 10 root entered with
| Ok _ w => w
| _ => entered
end.
Definition twins_root_state : ElementState :=
default (mkElementState ∅ root ∅ [] 0) (heap mounted_twins !! 1).
Definition twins_child_state : ElementState :=
default (mkElementState ∅ child ∅ [] 0) (heap mounted_twins !! 3).
End Examples.

(** * Properties *)

(** ** FutureQueue *)

Module FutureQueueFacts.
Import FutureQueue.
Section facts.
Context {A R : Type}.
Implicit Types (q : FutureQueue A R) (f : Future A R)
           (history : list (action A R * option (Future A R))).

Lemma inv_init : inv [] (@init A R).
Proof.
split; simpl; try (intros; exfalso; set_solver).
constructor.
Qed.

Lemma inv_step history q a d q' :
inv history q → step q a d q' → inv ((a, d) :: history) q'.
Proof.
intros [Hs Hp Hd Hdel Hnd] Hstep.
destruct Hstep as [a q|q fid q' Hstart|q fid o q' Hfin|q f rest r q' Hdone Hget].
- (* put *)
split; unfold put, registered, delivered in *; simpl in *.
+ intros b [Hb| ->%list_elem_of_singleton]%elem_of_app; [right; auto|left].
+ intros k f Hk. destruct (Hp k f Hk) as (?&?&?&?). repeat split; auto. by right.
+ intros f Hf. destruct (Hd f Hf) as (?&?&?&?). repeat split; auto. by right.
+ auto.
+ auto.
- (* the wrapper starts *)
unfold wrapper_start in Hstart.
destruct (_scheduled q) as [|a rest] eqn:Hsched; [done|].
injection Hstart as <- <-.
split; unfold registered, delivered in *; simpl in *.
+ intros b Hb. apply Hs. by right.
+ intros k f. rewrite lookup_insert. case_decide as Hk.
  * intros [= <-]. subst k. simpl. repeat split; auto. apply Hs. by left.
  * intros Hf. destruct (Hp k f Hf) as (?&?&?&?). repeat split; auto.
+ intros f Hf. destruct (Hd f Hf) as (?&?&?&?). repeat split; auto.
  rewrite lookup_insert_ne; [done|lia].
+ intros f Hf. destruct (Hdel f Hf) as (?&?). split; auto.
  rewrite lookup_insert_ne; [done|lia].
+ done.
- (* the wrapper finishes *)
unfold wrapper_finish in Hfin.
destruct (_pending q !! fid) as [f0|] eqn:Hf0; [|done].
injection Hfin as <-.
destruct (Hp fid f0 Hf0) as (Hid & Hlt & Hst & Hreg).
split; unfold registered, delivered in *; simpl in *.
+ auto.
+ intros k f. rewrite lookup_delete. case_decide; [done|]. apply Hp.
+ intros f [Hf| ->%list_elem_of_singleton]%elem_of_app.
  * destruct (Hd f Hf) as (?&?&?&?). repeat split; auto.
    rewrite lookup_delete. case_decide; done.
  * simpl. repeat split; eauto. by rewrite lookup_delete_eq.
+ intros f Hf. destruct (Hdel f Hf) as (?&?). split; auto.
  rewrite lookup_delete. case_decide; done.
+ rewrite <-(assoc_L (++)), fmap_app. simpl.
  rewrite fmap_app in Hnd.
  apply NoDup_app in Hnd as (Hnd1 & Hdisj & Hnd2).
  apply NoDup_app. split; [done|]. split.
  * intros x Hx [->|Hx2]%elem_of_cons; [|by eapply Hdisj].
    apply list_elem_of_fmap in Hx as (f & -> & Hf).
    destruct (Hd f Hf) as (_&_&_&Hnone). congruence.
  * apply NoDup_cons. split; [|done].
    intros (f & -> & Hf)%list_elem_of_fmap.
    destruct (Hdel f Hf) as (_&Hnone). congruence.
- (* get *)
unfold get in Hget. rewrite Hdone in Hget.
destruct (await_done f) as [r0|]; [|done]. injection Hget as <- <-.
rewrite Hdone in *.
split; unfold registered, delivered in *; simpl in *.
+ auto.
+ auto.
+ intros f' Hf'. apply Hd. by right.
+ intros f' [->|Hf']%elem_of_cons; [|by apply Hdel].
  destruct (Hd f) as (?&?&?&?); [by left|]. done.
+ rewrite fmap_app in *. simpl in *.
  apply NoDup_cons in Hnd as [Hnotin Hnd].
  apply NoDup_app in Hnd as (Hnd1 & Hdisj & Hnd2).
  apply NoDup_app. split; [done|]. split.
  * intros x Hx [->|Hx2]%elem_of_cons; [|by eapply Hdisj].
    apply Hnotin, elem_of_app. by left.
  * apply NoDup_cons. split; [|done].
    intros Hin. apply Hnotin, elem_of_app. by right.
Qed.

Lemma inv_run history q : run init history q → inv history q.
Proof. induction 1; eauto using inv_init, inv_step. Qed.

(** C8.  In every run of a queue from its creation: [get] keeps its caller
waiting exactly as long as the done-channel is empty; when it is served
it takes exactly the first future off the done-channel and touches
nothing else; that future is one whose awaitable was registered by a
[put] and that has ended, and [get] returns its result if it succeeded
and raises its own failure otherwise; it had not been delivered before,
and no future is delivered by two [get]s. *)
Theorem get_delivers_one_completion history q :
run init history q →
(get q = None ↔ _done q = [])
∧ (∀ r q', get q = Some (r, q') →
   ∃ f o, _done q = f :: _done q'
     ∧ _pending q' = _pending q ∧ _scheduled q' = _scheduled q
     ∧ awaitable f ∈ registered history
     ∧ future_state f = Some o ∧ r = outcome o
     ∧ future_id f ∉ future_id <$> delivered history)
∧ NoDup (future_id <$> delivered history).
Proof.
intros Hrun. pose proof (inv_run _ _ Hrun) as [Hs Hp Hd Hdel Hnd].
split; [|split].
- unfold get. destruct (_done q) as [|f rest] eqn:Hdone; [done|].
destruct (Hd f) as (_ & [o Ho] & _); [by left|].
unfold await_done. rewrite Ho. by destruct o.
- intros r q' Hget. unfold get in Hget.
destruct (_done q) as [|f rest] eqn:Hdone; [done|].
destruct (Hd f) as (_ & [o Ho] & Hreg & _); [by left|].
unfold await_done in Hget. rewrite Ho in Hget.
exists f, o.
assert (Some (outcome o, mkFutureQueue (_scheduled q) (_pending q) rest (next_future q))
        = Some (r, q')) as [= <- <-] by (by destruct o).
simpl. repeat split; auto.
rewrite fmap_app in Hnd. simpl in Hnd.
apply NoDup_cons in Hnd as [Hnotin _].
intros Hin. apply Hnotin, elem_of_app. by right.
- rewrite fmap_app in Hnd. by apply NoDup_app in Hnd as (_ & _ & ?).
Qed.
End facts.

Lemma get_delivers_one_completion_witness :
run init Examples.queue_history Examples.queue_served
∧ (get Examples.queue_finished
     = Some (inl 7, Examples.queue_served))
∧ NoDup (future_id <$> delivered Examples.queue_history).
Proof.
assert (Hrun : run init Examples.queue_history Examples.queue_served).
{ apply run_step with (q1 := Examples.queue_finished).
  - apply run_step with (q1 := Examples.queue_started).
    + apply run_step with (q1 := Examples.queue_put).
      * apply run_step with (q1 := init); [apply run_nil|exact (step_put "a" init)].
      * apply step_start with (fid := 0). reflexivity.
    + apply step_finish. vm_compute. reflexivity.
  - apply step_get with (rest := []) (r := inl 7); reflexivity. }
split; [exact Hrun|]. split; [reflexivity|].
apply (get_delivers_one_completion _ _ Hrun).
Defined.
End FutureQueueFacts.

(** ** Frame lemmas: what renders and unmounts leave alone *)

Lemma post_bind {A B} (P : World → Prop) (r : result A) (k : A → World → result B) :
  post P r → (∀ a w, P w → post P (k a w)) → post P (bind r k).
Proof. destruct r; simpl; auto. Qed.

Lemma post_impl {A} (P Q : World → Prop) (r : result A) :
  post P r → (∀ w, P w → Q w) → post Q r.
Proof. destruct r; simpl; auto. Qed.

(** Closes the fields of [evolves] for a step that leaves them as they are. *)
Local Ltac unchanged := simpl; auto; try done; try naive_solver.

Lemma evolves_refl w : evolves w w.
Proof. split; unchanged. Qed.

Lemma evolves_trans w1 w2 w3 : evolves w1 w2 → evolves w2 w3 → evolves w1 w3.
Proof.
  intros [R1 Q1 N1 H1 W1 T1 L1] [R2 Q2 N2 H2 W2 T2 L2]. split.
  - congruence.
  - congruence.
  - lia.
  - intros s st Hs. destruct (H1 s st Hs) as (st1 & Hs1 & ? & ?).
    destruct (H2 s st1 Hs1) as (st2 & Hs2 & ? & ?). exists st2. split; [done|]. split; congruence.
  - intros s st3 Hs3. destruct (W2 s st3 Hs3) as [[st2 Hs2]|[? ?]].
    + destruct (W1 s st2 Hs2) as [?|[? ?]]; [by left|right].
      destruct (H2 s st2 Hs2) as (st3' & Hs3' & _ & Hh). split; [done|].
      assert (st3' = st3) as -> by congruence. lia.
    + right. lia.
  - intros x s Hx. destruct (T2 x s Hx) as [Hx2|?]; [|right; lia].
    destruct (T1 x s Hx2) as [?|?]; [by left|right; lia].
  - by etrans.
Qed.

Lemma after_refl w : allocated w → after w w.
Proof. split; [apply evolves_refl|done]. Qed.

Lemma after_trans w1 w2 w3 : after w1 w2 → after w2 w3 → after w1 w3.
Proof. intros [? ?] [? ?]. split; [by eapply evolves_trans|done]. Qed.

Lemma post_after {A} w1 w2 (r : result A) :
  after w1 w2 → post (after w2) r → post (after w1) r.
Proof. intros H12 Hr. eapply post_impl; [exact Hr|]. intros w3. by apply after_trans. Qed.

(** The steps that touch neither the store of states nor the table. *)
Lemma after_log ev w : allocated w → after w (log ev w).
Proof.
  intros Hal. split; [|exact Hal]. split; unchanged.
  by apply prefix_app_r.
Qed.

Lemma after_set_event_handlers f w : allocated w → after w (set_event_handlers f w).
Proof.
  intros Hal. split; [|exact Hal]. split; unchanged.
Qed.

Lemma after_set_objects f w : allocated w → after w (set_objects f w).
Proof.
  intros Hal. split; [|exact Hal]. split; unchanged.
Qed.

Lemma after_set_hook_stack f w : allocated w → after w (set_hook_stack f w).
Proof.
  intros Hal. split; [|exact Hal]. split; unchanged.
Qed.

Lemma after_set_next_ref w : allocated w → after w (set_next_ref S w).
Proof.
  intros Hal. split.
  - split; unchanged.
  - intros s st Hs. destruct (Hal s st Hs). simpl. lia.
Qed.

Lemma after_delete_element_state x w :
  allocated w → after w (set_element_states (delete x) w).
Proof.
  intros Hal. split; [|exact Hal]. split; unchanged.
  intros y s. rewrite lookup_delete. case_decide; [done|]. by left.
Qed.

(** Rewriting the mutable parts of a state. *)
Lemma after_alter f s w :
  (∀ st, element_obj (f st) = element_obj st) →
  (∀ st, life_cycle_hook (f st) = life_cycle_hook st) →
  allocated w → after w (set_heap (alter f s) w).
Proof.
  intros Hobj Hhook Hal. split.
  - split; unchanged.
    + intros s' st Hs'. destruct (decide (s = s')) as [->|Hne].
      * exists (f st). rewrite lookup_alter_eq, Hs'. auto.
      * exists st. by rewrite lookup_alter_ne.
    + intros s' st'. rewrite lookup_alter. case_decide.
      * intros (st & ? & ?)%fmap_Some. left. subst. by exists st.
      * intros ?. left. by exists st'.
  - intros s' st'. simpl. rewrite lookup_alter. case_decide.
    + intros (st & Hs & ->)%fmap_Some. subst. rewrite Hhook. by apply Hal.
    + apply Hal.
Qed.

(** Induction on a coroutine: what holds of every coroutine that one
    resumption can leave holds of the coroutine. *)
Lemma gen_rest_ind (P : gen → Prop) :
  (∀ resume, (∀ stack o o' rest, resume stack o = (o', Yield rest) → P rest) →
             P (Gen resume)) →
  ∀ g, P g.
Proof.
  intros H. fix IH 1. intros [resume]. apply H. intros stack o o' rest Heq.
  destruct (resume stack o) as [o1 [k|v|e]]; try discriminate.
  injection Heq as _ <-. apply IH.
Qed.

(** The same lemmas, for a step that follows others. *)
Lemma after_then_log w x ev : after w x → after w (log ev x).
Proof. intros H. eapply after_trans; [exact H|]. apply after_log, H. Qed.
Lemma after_then_event_handlers w x f : after w x → after w (set_event_handlers f x).
Proof. intros H. eapply after_trans; [exact H|]. apply after_set_event_handlers, H. Qed.
Lemma after_then_objects w x f : after w x → after w (set_objects f x).
Proof. intros H. eapply after_trans; [exact H|]. apply after_set_objects, H. Qed.
Lemma after_then_hook_stack w x f : after w x → after w (set_hook_stack f x).
Proof. intros H. eapply after_trans; [exact H|]. apply after_set_hook_stack, H. Qed.
Lemma after_then_next_ref w x : after w x → after w (set_next_ref S x).
Proof. intros H. eapply after_trans; [exact H|]. apply after_set_next_ref, H. Qed.
Lemma after_then_delete w x e_id : after w x → after w (set_element_states (delete e_id) x).
Proof. intros H. eapply after_trans; [exact H|]. apply after_delete_element_state, H. Qed.
Lemma after_then_alter w x f s :
  (∀ st, element_obj (f st) = element_obj st) →
  (∀ st, life_cycle_hook (f st) = life_cycle_hook st) →
  after w x → after w (set_heap (alter f s) x).
Proof. intros ? ? H. eapply after_trans; [exact H|]. by apply after_alter, H. Qed.

Create HintDb frame.
#[local] Hint Resolve after_refl after_then_log after_then_event_handlers
  after_then_objects after_then_hook_stack after_then_next_ref after_then_delete : frame.
#[local] Hint Extern 2 (after _ (set_heap (alter _ _) _)) =>
  apply after_then_alter; [reflexivity|reflexivity|] : frame.
#[local] Hint Extern 1 (after _ (set_current _ _)) => unfold set_current : frame.
#[local] Hint Extern 1 (after _ (unset_current _ _)) => unfold unset_current : frame.
#[local] Hint Extern 1 (after _ (element_will_render _ _)) => unfold element_will_render : frame.
#[local] Hint Extern 1 (after _ (element_did_render _ _)) => unfold element_did_render : frame.
#[local] Hint Extern 1 (after _ (element_will_unmount _ _)) => unfold element_will_unmount : frame.

(** Steps the goal [post (after w0) (let! x, w := r in k)] down to [k]. *)
Local Ltac frame_bind :=
  apply post_bind; [|let a := fresh "a" in let w := fresh "w" in
                      let H := fresh "Hafter" in intros a w H].

Lemma after_drive element_state g w0 w :
  after w0 w → post (after w0) (drive element_state g w).
Proof.
  revert w. induction g as [resume IH] using gen_rest_ind. intros w Hw. simpl.
  destruct (resume _ _) as [o [rest|v|e]] eqn:Hres; simpl.
  - eapply IH; [exact Hres|]. eauto 10 with frame.
  - eauto 10 with frame.
  - eauto 10 with frame.
Qed.

Lemma after_del_event_handlers ids w0 w :
  after w0 w → post (after w0) (del_event_handlers ids w).
Proof.
  revert w. induction ids as [|i ids IH]; intros w Hw; simpl; [done|].
  destruct (_event_handlers w !! i); simpl; [|done].
  apply IH. eauto with frame.
Qed.

Lemma after_clear_element_state_event_handlers s w0 w :
  after w0 w → post (after w0) (_clear_element_state_event_handlers s w).
Proof.
  intros Hw. unfold _clear_element_state_event_handlers.
  destruct (heap w !! s); simpl; [|done].
  frame_bind; [by apply after_del_event_handlers|]. simpl. eauto with frame.
Qed.

Lemma after_unmount fuel :
  (∀ s w0 w, after w0 w → post (after w0) (_unmount_element_state fuel s w))
  ∧ (∀ s w0 w, after w0 w → post (after w0) (_unmount_element_state_children fuel s w))
  ∧ (∀ s i w0 w, after w0 w → post (after w0) (unmount_children_from fuel s i w)).
Proof.
  induction fuel as [|fuel (IHu & IHc & IHl)]; [by repeat split|].
  split; [|split].
  - intros s w0 w Hw. simpl.
    destruct (heap w !! s) as [st|]; simpl; [|done].
    frame_bind; [apply after_clear_element_state_event_handlers; eauto with frame|].
    frame_bind; [by apply IHc|].
    destruct (_element_states _ !! _); simpl; eauto with frame.
  - intros s w0 w Hw. simpl.
    frame_bind; [by apply IHl|]. simpl. eauto with frame.
  - intros s i w0 w Hw. simpl.
    destruct (heap w !! s) as [st|]; simpl; [|done].
    destruct (child_elements_ids st !! i) as [e_id|]; simpl; [|done].
    destruct (_element_states w !! e_id) as [child|]; simpl; [|done].
    frame_bind; [by apply IHu|]. by apply IHl.
Qed.

Lemma after_create_element_state element w0 w :
  after w0 w →
  after w0 (_create_element_state element w).2
  ∧ next_ref w0 ≤ (_create_element_state element w).1.
Proof.
  intros Hw. unfold _create_element_state. simpl. split; [|destruct Hw as [[] _]; lia].
  eapply after_trans; [exact Hw|]. destruct Hw as [_ Hal]. split.
  - split; unchanged.
    + intros s st Hs. exists st. destruct (Hal s st Hs).
      rewrite lookup_insert_ne by lia. done.
    + intros s st'. rewrite lookup_insert. case_decide.
      * intros [= <-]. subst. simpl. right. lia.
      * intros ?. left. by exists st'.
  - intros s st. simpl. rewrite lookup_insert. case_decide.
    + intros [= <-]. subst. simpl. lia.
    + intros Hs. destruct (Hal s st Hs). lia.
Qed.

Lemma after_then_mount w x e_id s :
  after w x → next_ref w ≤ s → after w (set_element_states (<[e_id := s]>) x).
Proof.
  intros [[] Hal] Hs. split; [|exact Hal]. split; simpl; auto.
  intros y s'. rewrite lookup_insert. case_decide; [|by auto].
  intros [= <-]. by right.
Qed.

Lemma after_pop m k w0 w : after w0 w → post (after w0) (pop m k w).
Proof.
  intros Hw. destruct m; simpl; try done.
  - destruct (objects w !! r) as [d|]; simpl; [|done].
    destruct (d !! k); simpl; eauto with frame.
  - destruct (heap w !! s) as [st|]; simpl; [|done].
    destruct (model st !! k); simpl; eauto with frame.
Qed.

Lemma after_lift_attributes attrs snapshot handlers w0 w :
  after w0 w →
  post (after w0) (map_fold (lift_attribute attrs) (Ok handlers w) snapshot).
Proof.
  intros Hw.
  apply (map_fold_weak_ind (λ r _, post (after w0) r)); [done|].
  intros k v _ r _ Hr. unfold lift_attribute.
  frame_bind; [done|].
  destruct (callable v); [|done].
  destruct (negb (is_EventHandler v)); simpl.
  - frame_bind; [apply after_pop; eauto with frame|].
    destruct (add _ _); done.
  - frame_bind; [by apply after_pop|]. done.
Qed.

Lemma after_render_model_event_handlers s model w0 w :
  after w0 w → post (after w0) (_render_model_event_handlers s model w).
Proof.
  intros Hw. unfold _render_model_event_handlers.
  frame_bind.
  { destruct (model !! "eventHandlers") as [m|]; [|done].
    destruct (items m w); done. }
  frame_bind.
  { destruct (model !! "attributes") as [attrs|]; [|done].
    destruct (items attrs w1); [|done]. by apply after_lift_attributes. }
  destruct (handlers_by_id a0); [|done].
  destruct (heap w2 !! s); simpl; eauto 10 with frame.
Qed.

Section frame.
Context (host : Host).

Lemma after_await c w0 w : after w0 w → post (after w0) (await host c w).
Proof.
  intros Hw. destruct c; simpl; apply after_drive; eauto with frame.
Qed.

Lemma after_render fuel :
  (∀ e w0 w, after w0 w → post (after w0) (_render_element host fuel e w))
  ∧ (∀ s m w0 w, after w0 w → post (after w0) (_render_model host fuel s m w))
  ∧ (∀ s c w0 w, after w0 w → post (after w0) (_render_model_children host fuel s c w))
  ∧ (∀ s cs rs w0 w, after w0 w →
       post (after w0) (render_children_loop host fuel s cs rs w)).
Proof.
  induction fuel as [|fuel (IHe & IHm & IHc & IHl)]; [by repeat split|].
  split; [|split; [|split]].
  - intros e w0 w Hw. simpl.
    set (w1 := if decide (id e ∈ dom (_element_states w)) then w else _).
    assert (after w0 w1) as Hw1.
    { subst w1. destruct (decide _); [done|].
      apply after_then_mount; [|destruct Hw as [[] _]; lia].
      exact (proj1 (after_create_element_state e w0 w Hw)). }
    clearbody w1.
    destruct (_element_states w1 !! id e) as [s|]; simpl; [|done].
    destruct (heap w1 !! s) as [st|]; simpl; [|done].
    frame_bind; [apply after_clear_element_state_event_handlers; eauto with frame|].
    frame_bind; [by apply after_unmount|].
    frame_bind; [by apply (after_await (NotStarted st))|].
    frame_bind; [by apply IHm|].
    destruct (items _ _); simpl; eauto 10 with frame.
  - intros s m w0 w Hw. simpl.
    destruct (items m w) as [d|]; simpl; [|done].
    frame_bind; [by apply after_render_model_event_handlers|].
    destruct (_ !! "children"); simpl; [|done].
    frame_bind; [by apply IHc|]. done.
  - intros s c w0 w Hw. simpl. by apply IHl.
  - intros s cs rs w0 w Hw. simpl.
    destruct cs as [|child cs]; simpl; [done|].
    destruct (is_Mapping child).
    + frame_bind; [by apply IHm|]. by apply IHl.
    + destruct child; try (by apply IHl).
      destruct (heap w !! s); simpl; [|done].
      frame_bind; [apply IHe; eauto with frame|]. by apply IHl.
Qed.
End frame.

(** ** The coroutine that renders under the life cycle hook *)

Section coroutine.
Context (host : Host).

(** Awaiting the coroutine is sending into it until it is done. *)
Lemma await_send c w :
  await host c w =
  match send host c w with
  | (Suspended c', w') => await host c' w'
  | (Returned v, w') => Ok v w'
  | (Thrown e, w') => Raised e w'
  end.
Proof.
  destruct c as [st|st g]; simpl; unfold loop_turn.
  - destruct (element_render host (element_obj st)) as [resume]. simpl.
    by destruct (resume _ _) as [o [rest|v|e]].
  - destruct g as [resume]. simpl.
    by destruct (resume _ _) as [o [rest|v|e]].
Qed.

(** Whenever the coroutine parks at its [yield], the hook it pushed for that
    turn is still on top of the stack: the [finally] clause has not run. *)
Lemma loop_turn_suspended element_state g w c w' :
  loop_turn element_state g w = (Suspended c, w') →
  hook_stack w' = life_cycle_hook element_state :: hook_stack w.
Proof.
  unfold loop_turn. destruct g as [resume]. simpl.
  destruct (resume _ _) as [o [rest|v|e]]; intros [= <- <-]; done.
Qed.

(** A turn that ends the coroutine leaves the stack as it found it. *)
Lemma loop_turn_finished element_state g w t w' :
  loop_turn element_state g w = (t, w') →
  (∀ c, t ≠ Suspended c) →
  hook_stack w' = hook_stack w.
Proof.
  unfold loop_turn. destruct g as [resume]. simpl.
  destruct (resume _ _) as [o [rest|v|e]]; intros [= <- <-] Hne; try done.
  by destruct (Hne (AtYield element_state rest)).
Qed.
End coroutine.

(** C7.  The render of the root awaits once.  Resumed for the first time, the
    coroutine pushes the hook, runs the render up to its [await] and parks:
    the hook is then still on the stack, although the render is suspended and
    the loop is free to run another element.  It is popped only when the
    coroutine is resumed, right before it is pushed again. *)
Theorem hook_still_current_while_suspended :
  ∃ element_state c w w',
    heap Examples.entered !! 1 = Some element_state
    ∧ hook_stack Examples.entered = []
    ∧ send Examples.awaiting_host (_render_with_life_cycle_hook element_state)
           Examples.entered = (Suspended c, w)
    ∧ hook_stack w = [life_cycle_hook element_state]
    ∧ send Examples.awaiting_host c w = (Returned (VDict 0), w')
    ∧ hook_stack w' = [].
Proof.
  eexists _, _, _, _. split; [vm_compute; reflexivity|].
  split; [reflexivity|]. split; [vm_compute; reflexivity|].
  split; [reflexivity|]. split; [vm_compute; reflexivity|]. reflexivity.
Qed.

(** ** The public operations *)

Section public.
Context (host : Host).

(** C4.  An event whose target is not in the table of handlers: [trigger]
    returns and the world is as it was, whatever the host's handlers are.  An
    event whose target is there: [trigger] is the call of that handler with
    the data of the event, so it returns when the call returns and raises
    what the call raises, in the world the call left. *)
Theorem trigger_dispatch (event : LayoutEvent) (w : World) :
  (_event_handlers w !! target event = None →
     ∀ any_host, trigger any_host event w = Ok tt w)
  ∧ (∀ handler, _event_handlers w !! target event = Some handler →
       trigger host event w = handler_call host handler (data event) w
       ∧ ∀ e w', handler_call host handler (data event) w = Raised e w' →
                 trigger host event w = Raised e w').
Proof.
  unfold trigger. split.
  - intros -> any_host. done.
  - intros handler ->. split; [done|]. by intros e w' ->.
Qed.

Lemma allocated_entered root o : allocated (Layout_enter (Layout_init root o)).
Proof.
  intros s st. simpl. rewrite lookup_insert. case_decide; [|by rewrite lookup_empty].
  intros [= <-]. subst. simpl. lia.
Qed.

(** C5.  Setting up the queue puts the render of the root in it.  [render]
    waits exactly when [get] does.  When a future is waiting in the
    done-channel, [render] takes that one future off it and, if the future
    succeeded, returns the model dictionary of the state that the table
    holds for the root; a failure of the future is raised.  On a Layout just
    set up, [render] waits until the loop has started the render of the root
    and that render has ended, and then it is served. *)
Theorem render_returns_root_model :
  (∀ root o,
     _rendering_queue (Layout_enter (Layout_init root o))
     = FutureQueue.put root FutureQueue.init)
  ∧ (∀ w, render w = None ↔ FutureQueue.get (_rendering_queue w) = None)
  ∧ (∀ w f rest o s st,
       _done (_rendering_queue w) = f :: rest →
       future_state f = Some o →
       _element_states w !! id (_root w) = Some s →
       heap w !! s = Some st →
       let w' := set_rendering_queue
                   (λ q, mkFutureQueue (_scheduled q) (_pending q) rest (next_future q)) w in
       render w = Some match o with
                       | Finished _ => Ok (VModel s) w'
                       | Failed e => Raised e w'
                       | Cancelled => Raised CancelledError w'
                       end)
  ∧ (∀ root o fuel fid w1 w2,
       let w0 := Layout_enter (Layout_init root o) in
       start_scheduled w0 = Some (fid, w1) →
       run_pending host fuel fid w1 = Some w2 →
       render w0 = None ∧ render w1 = None ∧ is_Some (render w2)).
Proof.
  split; [done|]. split; [|split].
  - intros w. unfold render.
    destruct (FutureQueue.get _) as [[[v|e] q]|]; [| |done].
    + destruct (_element_states _ !! _) as [s|]; [|done].
      by destruct (heap _ !! s).
    + done.
  - intros w f rest o s st Hdone Hstate Hroot Hs w'. unfold render, FutureQueue.get.
    rewrite Hdone. unfold FutureQueue.await_done. rewrite Hstate. simpl.
    destruct o; simpl; [|done|done]. by rewrite Hroot, Hs.
  - intros root o fuel fid w1 w2 w0 Hstart Hrun.
    injection Hstart as <- <-. split; [done|]. split; [done|].
    revert Hrun. unfold run_pending. simpl. rewrite lookup_insert_eq. simpl.
    set (w1 := set_rendering_queue _ _).
    assert (after w1 w1) as Hw1 by apply after_refl, (allocated_entered root o).
    pose proof (proj1 (after_render host fuel) root w1 w1 Hw1) as Hafter.
    destruct (_render_element host fuel root w1) as [v w'|e w'|]; simpl in *; [| |done].
    + destruct Hafter as [[_ -> _ _ _ _ _] _]. simpl.
      unfold FutureQueue.wrapper_finish. simpl. rewrite lookup_insert_eq. simpl.
      intros [= <-]. unfold render. simpl.
      destruct (_element_states w' !! id (_root w')) as [s|]; [|done].
      by destruct (heap w' !! s).
    + destruct Hafter as [[_ -> _ _ _ _ _] _]. simpl.
      unfold FutureQueue.wrapper_finish. simpl. rewrite lookup_insert_eq. simpl.
      intros [= <-]. done.
Qed.
End public.

Lemma trigger_dispatch_witness :
  trigger Examples.failing_host (mkLayoutEvent "absent" []) Examples.mounted_family
    = Ok tt Examples.mounted_family
  ∧ trigger Examples.failing_host (mkLayoutEvent "4" []) Examples.mounted_family
    = Raised (HostError "boom") Examples.mounted_family.
Proof.
  split.
  - apply (proj1 (trigger_dispatch Examples.failing_host (mkLayoutEvent "absent" [])
                                   Examples.mounted_family)).
    vm_compute. reflexivity.
  - eapply (proj2 (trigger_dispatch Examples.failing_host (mkLayoutEvent "4" [])
                                    Examples.mounted_family)).
    + vm_compute. reflexivity.
    + reflexivity.
Defined.

Lemma render_returns_root_model_witness :
  render Examples.root_rendered
  = Some (Ok (VModel 1)
             (set_rendering_queue (λ _, mkFutureQueue [] ∅ [] 1) Examples.root_rendered)).
Proof.
  eapply (proj1 (proj2 (proj2 (render_returns_root_model Examples.family_host)))
            Examples.root_rendered _ [] (Finished (VModel 1)) 1).
  - vm_compute. reflexivity.
  - reflexivity.
  - vm_compute. reflexivity.
  - vm_compute. reflexivity.
Defined.

(** C1.  The root renders a [div] with an [onClick] of its own around a
    [span] with another.  After the render the table of handlers holds both
    handlers, but the state of the root, the only state there is, owns only
    the one of the [span]: resolving the inner dictionary cleared the ids of
    the outer one.  Handler ["2"] belongs to no state, and it is still in the
    table after the root has been unmounted. *)
Theorem nested_handlers_leave_orphan :
  ∃ w w',
    _render_element Examples.nested_host 10 Examples.root Examples.entered
      = Ok (VModel 1) w
    ∧ dom (_event_handlers w) = {["2"; "3"]}
    ∧ (∀ s st, heap w !! s = Some st → "2" ∉ event_handler_ids st)
    ∧ _element_states_exit 10 1 w = Ok tt w'
    ∧ _element_states w' = ∅
    ∧ "2" ∈ dom (_event_handlers w').
Proof.
  eexists _, _. split; [vm_compute; reflexivity|]. split.
  { apply (bool_decide_unpack _). vm_compute. reflexivity. }
  split.
  { apply map_Forall_lookup. apply (bool_decide_unpack _). vm_compute. reflexivity. }
  split; [vm_compute; reflexivity|]. split.
  { apply (bool_decide_unpack _). vm_compute. reflexivity. }
  apply (bool_decide_unpack _). vm_compute. reflexivity.
Qed.

(** ** Lifting callable attributes to event handlers *)

(** The attributes that stay: those whose value is not callable. *)
Lemma difference_callable_all (A : gmap string value) :
  A ∖ filter (λ kv, callable kv.2 = true) A = filter (λ kv, callable kv.2 = false) A.
Proof.
  apply map_eq. intros k. rewrite lookup_difference.
  destruct (A !! k) as [v|] eqn:Hk.
  - destruct (callable v) eqn:Hv.
    + rewrite (map_lookup_filter_Some_2 _ _ k v) by done.
      symmetry. apply map_lookup_filter_None. right. intros v' ?. simpl. congruence.
    + rewrite (proj2 (map_lookup_filter_None _ _ k)).
      * symmetry. by apply map_lookup_filter_Some_2.
      * right. intros v' ?. simpl. congruence.
  - rewrite (proj2 (map_lookup_filter_None _ _ k)) by (by left).
    symmetry. apply map_lookup_filter_None. by left.
Qed.

Lemma lift_attributes_spec b (A handlers0 : gmap string value) w :
  objects w !! b = Some A →
  ∃ handlers n,
    map_fold (lift_attribute (VDict b)) (Ok handlers0 w) A
    = Ok handlers
         (set_next_ref (λ _, n)
            (set_objects (λ _, <[b := filter (λ kv, callable kv.2 = false) A]> (objects w)) w))
    ∧ next_ref w ≤ n
    ∧ (∀ k, A !! k = None ∨ (∃ v, A !! k = Some v ∧ callable v = false) →
            handlers !! k = handlers0 !! k)
    ∧ (∀ k h, A !! k = Some (VHandler h) → handlers !! k = Some (VHandler h))
    ∧ (∀ k c, A !! k = Some (VCallable c) →
         ∃ a, next_ref w ≤ a < n
              ∧ handlers !! k = Some (VHandler (mkEventHandler (pretty a) [c] ∅))).
Proof.
  intros Hb.
  pose (P := λ (r : result (gmap string value)) (m : gmap string value),
    m ⊆ A →
    ∃ handlers n,
      r = Ok handlers
             (set_next_ref (λ _, n)
                (set_objects (λ _, <[b := A ∖ filter (λ kv, callable kv.2 = true) m]> (objects w)) w))
      ∧ next_ref w ≤ n
      ∧ (∀ k, m !! k = None ∨ (∃ v, m !! k = Some v ∧ callable v = false) →
              handlers !! k = handlers0 !! k)
      ∧ (∀ k h, m !! k = Some (VHandler h) → handlers !! k = Some (VHandler h))
      ∧ (∀ k c, m !! k = Some (VCallable c) →
           ∃ a, next_ref w ≤ a < n
                ∧ handlers !! k = Some (VHandler (mkEventHandler (pretty a) [c] ∅)))).
  cut (∀ m, P (map_fold (lift_attribute (VDict b)) (Ok handlers0 w) m) m).
  { intros Hcut. destruct (Hcut A) as (handlers & n & Heq & ?); [done|].
    exists handlers, n. by rewrite <-difference_callable_all. }
  apply map_fold_weak_ind; unfold P; clear P.
  { intros _. exists handlers0, (next_ref w). split; [|split; [done|split; [done|]]].
    - rewrite map_filter_empty, map_difference_empty, insert_id by done.
      by destruct w.
    - split; intros k ?; by rewrite lookup_empty. }
  intros i x m r Hi IH Hsub.
  assert (A !! i = Some x) as HAi.
  { eapply lookup_weaken; [|exact Hsub]. by rewrite lookup_insert_eq. }
  assert (m ⊆ A) as Hm.
  { etrans; [|exact Hsub]. by apply insert_subseteq. }
  destruct (IH Hm) as (handlers & n & -> & Hn & Hkeep & Hhandler & Hfun). clear IH.
  unfold lift_attribute at 1. simpl.
  destruct (callable x) eqn:Hx.
  - (* a callable: it is popped *)
    assert ((A ∖ filter (λ kv, callable kv.2 = true) m) !! i = Some x) as Hpop.
    { rewrite lookup_difference, (proj2 (map_lookup_filter_None _ _ i)); [done|by left]. }
    assert (delete i (A ∖ filter (λ kv, callable kv.2 = true) m)
            = A ∖ filter (λ kv, callable kv.2 = true) (<[i := x]> m)) as Hdel.
    { rewrite map_filter_insert_True by done.
      apply map_eq. intros k. destruct (decide (i = k)) as [->|Hne].
      - by rewrite lookup_delete_eq, lookup_difference, lookup_insert_eq.
      - by rewrite lookup_delete_ne, !lookup_difference, lookup_insert_ne. }
    destruct x as [| |c|h| | | | | |]; try discriminate; simpl.
    + rewrite lookup_insert_eq. simpl. rewrite Hpop. simpl.
      eexists _, (S n). split; [|split; [lia|split; [|split]]].
      * unfold set_objects, set_next_ref. simpl.
        by rewrite insert_insert_eq, Hdel.
      * intros k [Hk|(v & Hk & Hv)].
        -- apply lookup_insert_None in Hk as [? ?].
           rewrite lookup_insert_ne by done. apply Hkeep. by left.
        -- rewrite lookup_insert in Hk. case_decide; [naive_solver|].
           rewrite lookup_insert_ne by done. apply Hkeep. right. eauto.
      * intros k h. rewrite lookup_insert. case_decide; [intros [=]|].
        rewrite lookup_insert_ne by done. apply Hhandler.
      * intros k c'. rewrite lookup_insert. case_decide.
        -- intros [= <-]. subst. exists n. rewrite lookup_insert_eq. split; [lia|done].
        -- intros Hk. destruct (Hfun k c' Hk) as (a & ? & ?). exists a.
           rewrite lookup_insert_ne by done. split; [lia|done].
    + rewrite lookup_insert_eq. simpl. rewrite Hpop. simpl.
      eexists _, n. split; [|split; [lia|split; [|split]]].
      * unfold set_objects, set_next_ref. simpl.
        by rewrite insert_insert_eq, Hdel.
      * intros k [Hk|(v & Hk & Hv)].
        -- apply lookup_insert_None in Hk as [? ?].
           rewrite lookup_insert_ne by done. apply Hkeep. by left.
        -- rewrite lookup_insert in Hk. case_decide; [naive_solver|].
           rewrite lookup_insert_ne by done. apply Hkeep. right. eauto.
      * intros k h'. rewrite lookup_insert. case_decide.
        -- intros [= <-]. subst. by rewrite lookup_insert_eq.
        -- rewrite lookup_insert_ne by done. apply Hhandler.
      * intros k c'. rewrite lookup_insert. case_decide; [intros [=]|].
        intros Hk. destruct (Hfun k c' Hk) as (a & ? & ?). exists a.
        by rewrite lookup_insert_ne.
  - (* not a callable: it stays *)
    exists handlers, n. split; [|split; [lia|split; [|split]]].
    + rewrite map_filter_insert_False by (simpl; congruence).
      by rewrite delete_id.
    + intros k [Hk|(v & Hk & Hv)].
      * apply lookup_insert_None in Hk as [? ?]. apply Hkeep. by left.
      * rewrite lookup_insert in Hk. case_decide.
        -- subst. apply Hkeep. by left.
        -- apply Hkeep. right. eauto.
    + intros k h. rewrite lookup_insert. case_decide; [naive_solver|apply Hhandler].
    + intros k c. rewrite lookup_insert. case_decide; [naive_solver|apply Hfun].
Qed.

Lemma handlers_by_id_spec (handlers : gmap string value) :
  map_Forall (λ _ v, is_EventHandler v = true) handlers →
  ∃ by_id, handlers_by_id handlers = Some by_id
    ∧ (∀ i h, by_id !! i = Some h →
         handler_id h = i ∧ ∃ k, handlers !! k = Some (VHandler h))
    ∧ (∀ k h, handlers !! k = Some (VHandler h) → is_Some (by_id !! handler_id h)).
Proof.
  unfold handlers_by_id.
  apply (map_fold_weak_ind (λ r m,
    map_Forall (λ _ v, is_EventHandler v = true) m →
    ∃ by_id, r = Some by_id
      ∧ (∀ i h, by_id !! i = Some h → handler_id h = i ∧ ∃ k, m !! k = Some (VHandler h))
      ∧ (∀ k h, m !! k = Some (VHandler h) → is_Some (by_id !! handler_id h)))).
  { intros _. exists ∅. split; [done|]. split; intros ? ?; by rewrite lookup_empty. }
  intros k v m r Hk IH Hall.
  apply map_Forall_insert in Hall as [Hv Hall]; [|done].
  destruct (IH Hall) as (by_id & -> & Hid & Hin). clear IH.
  destruct v as [| | |h| | | | | |]; try discriminate.
  exists (<[handler_id h := h]> by_id). split; [done|]. split.
  - intros i h'. rewrite lookup_insert. case_decide.
    + intros [= <-]. split; [done|]. exists k. by rewrite lookup_insert_eq.
    + intros Hi. destruct (Hid i h' Hi) as [? [k' Hk']]. split; [done|].
      exists k'. rewrite lookup_insert_ne; [done|]. intros ->. congruence.
  - intros k' h'. rewrite lookup_insert. case_decide.
    + intros [= <-]. by rewrite lookup_insert_eq.
    + intros Hk'. rewrite lookup_insert. case_decide; [done|]. by eapply Hin.
Qed.

(** [_render_model_event_handlers] on a model whose [attributes] is a
    dictionary of the host at address [b] and whose [eventHandlers], if it
    has any, are event handlers. *)
Lemma render_model_event_handlers_spec s st b (model A handlers0 : gmap string value) w :
  heap w !! s = Some st →
  match model !! "eventHandlers" with
  | None => handlers0 = ∅
  | Some m => items m w = Some handlers0
  end →
  map_Forall (λ _ v, is_EventHandler v = true) handlers0 →
  model !! "attributes" = Some (VDict b) →
  objects w !! b = Some A →
  ∃ handlers by_id w',
    _render_model_event_handlers s model w = Ok (VLit (serialized <$> handlers)) w'
    ∧ handlers_by_id handlers = Some by_id
    ∧ (∀ i h, by_id !! i = Some h →
         handler_id h = i ∧ ∃ k, handlers !! k = Some (VHandler h))
    ∧ (∀ k h, handlers !! k = Some (VHandler h) → is_Some (by_id !! handler_id h))
    ∧ objects w' = <[b := filter (λ kv, callable kv.2 = false) A]> (objects w)
    ∧ heap w' = <[s := with_event_handler_ids (dom by_id) st]> (heap w)
    ∧ _event_handlers w' = by_id ∪ _event_handlers w
    ∧ _element_states w' = _element_states w
    ∧ trace w' = trace w
    ∧ next_ref w ≤ next_ref w'
    ∧ (∀ k, A !! k = None ∨ (∃ v, A !! k = Some v ∧ callable v = false) →
            handlers !! k = handlers0 !! k)
    ∧ (∀ k h, A !! k = Some (VHandler h) → handlers !! k = Some (VHandler h))
    ∧ (∀ k c, A !! k = Some (VCallable c) →
         ∃ a, next_ref w ≤ a < next_ref w'
              ∧ handlers !! k = Some (VHandler (mkEventHandler (pretty a) [c] ∅))).
Proof.
  intros Hs Hev Hall Hattrs Hb.
  destruct (lift_attributes_spec b A handlers0 w Hb)
    as (handlers & n & Hfold & Hn & Hkeep & Hhandler & Hfun).
  assert (map_Forall (λ _ v, is_EventHandler v = true) handlers) as Hall'.
  { intros k v Hk. destruct (A !! k) as [x|] eqn:HA.
    - destruct (callable x) eqn:Hx.
      + destruct x; try discriminate.
        * destruct (Hfun k f HA) as (a & _ & Heq). rewrite Heq in Hk. by injection Hk as <-.
        * rewrite (Hhandler k h HA) in Hk. by injection Hk as <-.
      + rewrite Hkeep in Hk by eauto. by eapply Hall.
    - rewrite Hkeep in Hk by eauto. by eapply Hall. }
  destruct (handlers_by_id_spec handlers Hall') as (by_id & Hby & Hid & Hin).
  eexists handlers, by_id, _. split.
  { unfold _render_model_event_handlers. rewrite Hattrs.
    assert ((match model !! "eventHandlers" with
             | None => Ok ∅ w
             | Some m => match items m w with
                         | None => Raised TypeError w
                         | Some d => Ok d w
                         end
             end) = Ok handlers0 w) as ->.
    { destruct (model !! "eventHandlers"); [by rewrite Hev|by subst]. }
    simpl. rewrite Hb, Hfold. simpl. rewrite Hby, Hs. reflexivity. }
  split; [done|]. split; [done|]. split; [done|]. simpl. split; [done|]. split.
  { apply map_eq. intros s'. destruct (decide (s = s')) as [<-|Hne].
    - rewrite !lookup_alter_eq, lookup_insert_eq, Hs. simpl.
      unfold with_event_handler_ids. simpl. by rewrite (left_id_L ∅ (∪)).
    - by rewrite !lookup_alter_ne, lookup_insert_ne. }
  repeat (split; [done|]). done.
Qed.

Section resolution.
Context (host : Host).

(** What [_render_model] emits, given what [_render_model_event_handlers]
    returned for the copy of the model: a new dictionary with the
    descriptors under [eventHandlers] and, [children] apart, the entries of
    the model. *)
Lemma render_model_emitted fuel s m (model : gmap string value) w D w1 v w2 :
  items m w = Some model →
  _render_model_event_handlers s model w = Ok D w1 →
  _render_model host fuel s m w = Ok v w2 →
  ∃ d, v = VLit d ∧ d !! "eventHandlers" = Some D
       ∧ ∀ k, k ≠ "eventHandlers" → k ≠ "children" → d !! k = model !! k.
Proof.
  intros Hm HD. destruct fuel as [|fuel]; [done|]. simpl. rewrite Hm, HD. simpl.
  destruct (_ !! "children") as [children|].
  - destruct (_render_model_children _ _ _ _ _) as [cs w3|e w3|]; simpl; [|done|done].
    intros [= <- <-]. eexists. split; [done|]. split.
    + by rewrite lookup_insert_ne, lookup_insert_eq.
    + intros k ? ?. by rewrite !lookup_insert_ne.
  - intros [= <- <-]. eexists. split; [done|]. split.
    + by rewrite lookup_insert_eq.
    + intros k ? ?. by rewrite lookup_insert_ne.
Qed.

Lemma render_model_without_children fuel s m (model : gmap string value) w D w1 :
  items m w = Some model →
  _render_model_event_handlers s model w = Ok D w1 →
  model !! "children" = None →
  _render_model host (S fuel) s m w = Ok (VLit (<["eventHandlers" := D]> model)) w1.
Proof.
  intros Hm HD Hc. simpl. rewrite Hm, HD. simpl.
  by rewrite lookup_insert_ne, Hc.
Qed.

(** C3.  Resolving a model whose [attributes] is the host's dictionary at
    [b], with entries [A], and whose [eventHandlers], if any, are event
    handlers [handlers0].  The resolution returns, and with [handlers] the
    handler map it built:
    - the dictionary at [b] has lost its callable entries and kept the others;
    - an attribute that is an event handler is in [handlers] under its key,
      as it is; an attribute that is another callable [c] is there under its
      key as a new event handler that holds [c] alone; both whatever
      [handlers0] had under that key; the other keys are as in [handlers0];
    - the ids of the state are exactly the ids of the handlers in [handlers],
      and the table of the Layout has a handler of that id for each of them;
    - the descriptor map returned has, under each key, the serialized handler
      of [handlers], and it is what the emitted model has under
      [eventHandlers]. *)
Theorem callable_attributes_become_handlers s st b m
    (model A handlers0 : gmap string value) w :
  heap w !! s = Some st →
  items m w = Some model →
  match model !! "eventHandlers" with
  | None => handlers0 = ∅
  | Some hm => items hm w = Some handlers0
  end →
  map_Forall (λ _ v, is_EventHandler v = true) handlers0 →
  model !! "attributes" = Some (VDict b) →
  objects w !! b = Some A →
  ∃ handlers w',
    _render_model_event_handlers s model w = Ok (VLit (serialized <$> handlers)) w'
    ∧ objects w' !! b = Some (filter (λ kv, callable kv.2 = false) A)
    ∧ (∀ k h, A !! k = Some (VHandler h) → handlers !! k = Some (VHandler h))
    ∧ (∀ k c, A !! k = Some (VCallable c) →
         ∃ a, next_ref w ≤ a < next_ref w'
              ∧ handlers !! k = Some (VHandler (mkEventHandler (pretty a) [c] ∅)))
    ∧ (∀ k, A !! k = None ∨ (∃ v, A !! k = Some v ∧ callable v = false) →
            handlers !! k = handlers0 !! k)
    ∧ (∃ st', heap w' !! s = Some st'
         ∧ ∀ i, i ∈ event_handler_ids st' ↔
                ∃ k h, handlers !! k = Some (VHandler h) ∧ handler_id h = i)
    ∧ (∀ k h, handlers !! k = Some (VHandler h) →
         ∃ h' k', _event_handlers w' !! handler_id h = Some h'
                  ∧ handler_id h' = handler_id h
                  ∧ handlers !! k' = Some (VHandler h'))
    ∧ (∀ k h, handlers !! k = Some (VHandler h) →
         (serialized <$> handlers) !! k = Some (serialize h))
    ∧ (∀ fuel v w2, _render_model host fuel s m w = Ok v w2 →
         ∃ d, v = VLit d ∧ d !! "eventHandlers" = Some (VLit (serialized <$> handlers)))
    ∧ (model !! "children" = None → ∀ fuel,
         _render_model host (S fuel) s m w
         = Ok (VLit (<["eventHandlers" := VLit (serialized <$> handlers)]> model)) w').
Proof.
  intros Hs Hm Hev Hall Hattrs Hb.
  destruct (render_model_event_handlers_spec s st b model A handlers0 w Hs Hev Hall Hattrs Hb)
    as (handlers & by_id & w' & Hrun & Hby & Hid & Hin & Hobj & Hheap & Htable & _ & _ & _
        & Hkeep & Hhandler & Hfun).
  exists handlers, w'. split; [done|]. split.
  { by rewrite Hobj, lookup_insert_eq. }
  split; [done|]. split; [done|]. split; [done|]. split.
  { eexists. split; [by rewrite Hheap, lookup_insert_eq|]. simpl. intros i.
    rewrite elem_of_dom. split.
    - intros [h Hh]. destruct (Hid i h Hh) as [? [k ?]]. eauto.
    - intros (k & h & Hk & <-). by eapply Hin. }
  split.
  { intros k h Hk. destruct (Hin k h Hk) as [h' Hh'].
    destruct (Hid _ h' Hh') as [? [k' ?]]. exists h', k'.
    rewrite Htable. split; [|done]. by apply lookup_union_Some_l. }
  split.
  { intros k h Hk. by rewrite lookup_fmap, Hk. }
  split.
  { intros fuel v w2 Hr.
    destruct (render_model_emitted fuel s m model w _ w' v w2 Hm Hrun Hr) as (d & ? & ? & _).
    eauto. }
  intros Hc fuel. by apply render_model_without_children.
Qed.

(** C10.  The host's model dictionary at [a] has, under [attributes], the
    host's dictionary at [b].  The Layout copies the model, but the copy
    holds the same [attributes] object, and the callable entries are popped
    from that object: after the event handlers have been resolved the
    dictionary at [a] is as it was, still pointing at [b], and the dictionary
    at [b] has no callable entry left; the model that is emitted has the
    very dictionary at [b] for its [attributes]. *)
Theorem attributes_are_shared_and_popped s st a b (model A handlers0 : gmap string value) w :
  heap w !! s = Some st →
  objects w !! a = Some model →
  a ≠ b →
  match model !! "eventHandlers" with
  | None => handlers0 = ∅
  | Some hm => items hm w = Some handlers0
  end →
  map_Forall (λ _ v, is_EventHandler v = true) handlers0 →
  model !! "attributes" = Some (VDict b) →
  objects w !! b = Some A →
  ∃ D w',
    _render_model_event_handlers s model w = Ok D w'
    ∧ objects w' !! a = Some model
    ∧ objects w' !! b = Some (filter (λ kv, callable kv.2 = false) A)
    ∧ (∀ k v, A !! k = Some v → callable v = true →
              ∀ d, objects w' !! b = Some d → d !! k = None)
    ∧ (∀ fuel v w2, _render_model host fuel s (VDict a) w = Ok v w2 →
         ∃ d, v = VLit d ∧ d !! "attributes" = Some (VDict b))
    ∧ (model !! "children" = None → ∀ fuel,
         _render_model host (S fuel) s (VDict a) w
         = Ok (VLit (<["eventHandlers" := D]> model)) w').
Proof.
  intros Hs Ha Hab Hev Hall Hattrs Hb.
  destruct (render_model_event_handlers_spec s st b model A handlers0 w Hs Hev Hall Hattrs Hb)
    as (handlers & by_id & w' & Hrun & _ & _ & _ & Hobj & _).
  eexists _, w'. split; [exact Hrun|]. split.
  { by rewrite Hobj, lookup_insert_ne. }
  split.
  { by rewrite Hobj, lookup_insert_eq. }
  split.
  { intros k v Hk Hv d. rewrite Hobj, lookup_insert_eq. intros [= <-].
    apply map_lookup_filter_None. right. intros v' Hk'. simpl. congruence. }
  split.
  { intros fuel v w2 Hr.
    destruct (render_model_emitted fuel s (VDict a) model w _ w' v w2 Ha Hrun Hr)
      as (d & ? & _ & Hd).
    exists d. split; [done|]. by rewrite Hd. }
  intros Hc fuel. by apply render_model_without_children.
Qed.
End resolution.

Lemma callable_attributes_become_handlers_witness :
  ∃ handlers w',
    _render_model_event_handlers 1 Examples.button_model Examples.button_world
    = Ok (VLit (serialized <$> handlers)) w'
    ∧ objects w' !! 0 = Some (filter (λ kv, callable kv.2 = false) Examples.button_attributes).
Proof.
  destruct (callable_attributes_become_handlers Examples.nested_host 1
              (mkElementState ∅ Examples.root ∅ [] 0) 0 (VDict 2)
              Examples.button_model Examples.button_attributes Examples.button_handlers
              Examples.button_world)
    as (handlers & w' & Hrun & Hobj & _).
  - vm_compute. reflexivity.
  - vm_compute. reflexivity.
  - vm_compute. reflexivity.
  - apply (bool_decide_unpack _). vm_compute. reflexivity.
  - vm_compute. reflexivity.
  - vm_compute. reflexivity.
  - exists handlers, w'. split; assumption.
Defined.

Lemma attributes_are_shared_and_popped_witness :
  ∃ D w',
    _render_model_event_handlers 1 Examples.button_model Examples.button_world = Ok D w'
    ∧ objects w' !! 2 = Some Examples.button_model
    ∧ objects w' !! 0 = Some (filter (λ kv, callable kv.2 = false) Examples.button_attributes).
Proof.
  destruct (attributes_are_shared_and_popped Examples.nested_host 1
              (mkElementState ∅ Examples.root ∅ [] 0) 2 0
              Examples.button_model Examples.button_attributes Examples.button_handlers
              Examples.button_world)
    as (D & w' & Hrun & Ha & Hb & _).
  - vm_compute. reflexivity.
  - vm_compute. reflexivity.
  - lia.
  - vm_compute. reflexivity.
  - apply (bool_decide_unpack _). vm_compute. reflexivity.
  - vm_compute. reflexivity.
  - vm_compute. reflexivity.
  - exists D, w'. repeat split; assumption.
Defined.

(** ** Unmounting *)

(** Induction on a mounted subtree. *)
Lemma mounted_ind_forest (P : mounted → Prop) :
  (∀ s st children, Forall P children → P (Mounted s st children)) →
  ∀ t, P t.
Proof.
  intros H. fix IH 1. intros [s st children]. apply H.
  induction children as [|t ts IHts]; constructor; [apply IH|exact IHts].
Qed.

Lemma del_event_handlers_spec ids w :
  NoDup ids →
  (∀ i, i ∈ ids → is_Some (_event_handlers w !! i)) →
  ∃ table, del_event_handlers ids w = Ok tt (set_event_handlers (λ _, table) w)
    ∧ ∀ i, table !! i = if decide (i ∈ ids) then None else _event_handlers w !! i.
Proof.
  revert w. induction ids as [|j ids IH]; intros w Hnd Hreg; cbn [del_event_handlers].
  - exists (_event_handlers w). split; [by destruct w|]. intros i.
    rewrite decide_False; [done|apply not_elem_of_nil].
  - apply NoDup_cons in Hnd as [Hj Hnd].
    destruct (Hreg j) as [h Hh]; [by left|]. rewrite Hh.
    destruct (IH (set_event_handlers (delete j) w) Hnd) as (table & -> & Htable).
    { intros i Hi. simpl. rewrite lookup_delete_ne; [apply Hreg; by right|].
      intros ->. done. }
    exists table. split; [done|]. intros i. rewrite Htable. cbn [_event_handlers set_event_handlers].
    destruct (decide (i = j)) as [->|Hne].
    + rewrite decide_False by done. rewrite lookup_delete_eq.
      rewrite decide_True; [done|by left].
    + rewrite lookup_delete_ne by done.
      repeat case_decide; try done; set_solver.
Qed.

Lemma cleared_cleared st : cleared (cleared st) = cleared st.
Proof. done. Qed.

Lemma unmounted_nil w : unmounted [] w w.
Proof.
  split; try done.
  - simpl. by rewrite (right_id_L [] (++)).
Qed.

Lemma unmounted_app ns1 ns2 w w1 w2 :
  unmounted ns1 w w1 → unmounted ns2 w1 w2 → unmounted (ns1 ++ ns2) w w2.
Proof.
  intros [R1 Q1 O1 S1 N1 T1 H1 E1 P1] [R2 Q2 O2 S2 N2 T2 H2 E2 P2].
  split; try congruence.
  - rewrite T2, T1. unfold hooks. by rewrite !fmap_app, (assoc_L (++)).
  - intros i. rewrite H2, H1. unfold handler_ids. rewrite bind_app.
    repeat case_decide; try done; set_solver.
  - intros x. rewrite E2, E1. unfold element_ids. rewrite fmap_app.
    repeat case_decide; try done; set_solver.
  - intros s. rewrite P2, P1. unfold refs. rewrite fmap_app.
    repeat case_decide; try done; try set_solver.
    by destruct (heap w !! s).
Qed.

Lemma elem_of_nodes_child n t children :
  t ∈ children → n ∈ nodes t → n ∈ children ≫= nodes.
Proof. intros Ht Hn. apply list_elem_of_bind. eauto. Qed.

(** The shape of a subtree depends on its own states only. *)
Lemma shape_frame w w' t :
  shape w t →
  (∀ s, s ∈ refs (nodes t) → heap w' !! s = heap w !! s) →
  (∀ x, x ∈ element_ids (nodes t) → _element_states w' !! x = _element_states w !! x) →
  shape w' t.
Proof.
  induction t as [s st children IH] using mounted_ind_forest.
  intros Hshape Hheap Htable. inversion Hshape as [? ? ? Hs Hid Hch Hall]; subst.
  constructor.
  - rewrite Hheap; [done|]. simpl. by left.
  - rewrite Htable; [done|]. simpl. by left.
  - done.
  - rewrite Forall_forall in IH, Hall. apply Forall_forall. intros t Ht.
    apply IH; [done|by apply Hall| |].
    + intros s' Hs'. apply Hheap. simpl. right.
      unfold refs in *. apply list_elem_of_fmap in Hs' as (n & -> & Hn).
      apply list_elem_of_fmap. exists n. split; [done|]. by eapply elem_of_nodes_child.
    + intros x Hx. apply Htable. simpl. right.
      unfold element_ids in *. apply list_elem_of_fmap in Hx as (n & -> & Hn).
      apply list_elem_of_fmap. exists n. split; [done|]. by eapply elem_of_nodes_child.
Qed.

Lemma distinct_app w ns1 ns2 :
  distinct w (ns1 ++ ns2) →
  distinct w ns1 ∧ distinct w ns2
  ∧ (∀ s, s ∈ refs ns1 → s ∉ refs ns2)
  ∧ (∀ x, x ∈ element_ids ns1 → x ∉ element_ids ns2)
  ∧ (∀ i, i ∈ handler_ids ns1 → i ∉ handler_ids ns2).
Proof.
  intros [Hr Hi Hh Hd Hreg]. unfold refs, element_ids, hooks, handler_ids in *.
  rewrite fmap_app in Hr. rewrite fmap_app in Hi. rewrite fmap_app in Hh.
  rewrite bind_app in Hd. setoid_rewrite bind_app in Hreg.
  apply NoDup_app in Hr as (? & ? & ?). apply NoDup_app in Hi as (? & ? & ?).
  apply NoDup_app in Hh as (? & ? & ?). apply NoDup_app in Hd as (? & ? & ?).
  split; [|split; [|split; [|split]]]; try done.
  - split; try done. intros i ?. apply Hreg. set_solver.
  - split; try done. intros i ?. apply Hreg. set_solver.
Qed.

(** Unmounting some states leaves the others distinct and registered. *)
Lemma distinct_frame w w' ns done_ns :
  distinct w ns →
  unmounted done_ns w w' →
  (∀ i, i ∈ handler_ids done_ns → i ∉ handler_ids ns) →
  distinct w' ns.
Proof.
  intros [Hr Hi Hh Hd Hreg] Hun Hdisj. split; try done.
  intros i Hin. rewrite (un_event_handlers _ _ _ Hun).
  rewrite decide_False; [by apply Hreg|]. intros ?. by eapply Hdisj.
Qed.

Lemma unmount_children_from_spec children :
  Forall unmounts children →
  ∀ w s parent i,
    heap w !! s = Some parent →
    drop i (child_elements_ids parent) = root_id <$> children →
    s ∉ refs (children ≫= nodes) →
    Forall (shape w) children →
    distinct w (children ≫= nodes) →
    ∃ n w', unmounted (children ≫= nodes) w w'
      ∧ ∀ fuel, n ≤ fuel → unmount_children_from fuel s i w = Ok tt w'.
Proof.
  induction 1 as [|t ts Ht _ IH]; intros w s parent i Hs Hdrop Hnotin Hshape Hdist.
  - exists 1, w. split; [apply unmounted_nil|]. intros [|fuel] ?; [lia|]. simpl.
    rewrite Hs. 
    assert (child_elements_ids parent !! i = None) as ->; [|done].
    rewrite <-(Nat.add_0_r i), <-lookup_drop, Hdrop. done.
  - assert (child_elements_ids parent !! i = Some (root_id t)) as Hi.
    { rewrite <-(Nat.add_0_r i), <-lookup_drop, Hdrop. done. }
    assert (drop (S i) (child_elements_ids parent) = root_id <$> ts) as Hdrop'.
    { replace (S i) with (i + 1) by lia. by rewrite <-drop_drop, Hdrop. }
    apply Forall_cons in Hshape as [Hshape_t Hshape_ts].
    change ((t :: ts) ≫= nodes) with (nodes t ++ (ts ≫= nodes)) in *.
    destruct (distinct_app _ _ _ Hdist) as (Hdt & Hdts & Hrefs & Hids & Hhids).
    destruct (Ht w Hshape_t Hdt) as (n1 & w1 & Hun1 & Hrun1).
    assert (_element_states w !! root_id t = Some (root_ref t)) as Htable.
    { by inversion Hshape_t. }
    destruct (IH w1 s parent (S i)) as (n2 & w2 & Hun2 & Hrun2).
    + rewrite (un_heap _ _ _ Hun1), decide_False; [done|].
      intros ?. apply Hnotin. unfold refs in *. rewrite fmap_app. set_solver.
    + done.
    + intros ?. apply Hnotin. unfold refs in *. rewrite fmap_app. set_solver.
    + rewrite Forall_forall in Hshape_ts. apply Forall_forall. intros t' Ht'.
      apply (shape_frame w); [by apply Hshape_ts| |].
      * intros s' Hs'. rewrite (un_heap _ _ _ Hun1), decide_False; [done|].
        intros Hin. apply (Hrefs s' Hin). unfold refs in *.
        apply list_elem_of_fmap in Hs' as (n & -> & Hn).
        apply list_elem_of_fmap. exists n. split; [done|]. by eapply elem_of_nodes_child.
      * intros x Hx. rewrite (un_element_states _ _ _ Hun1), decide_False; [done|].
        intros Hin. apply (Hids x Hin). unfold element_ids in *.
        apply list_elem_of_fmap in Hx as (n & -> & Hn).
        apply list_elem_of_fmap. exists n. split; [done|]. by eapply elem_of_nodes_child.
    + by eapply distinct_frame.
    + exists (S (n1 `max` n2)), w2. split; [by eapply unmounted_app|].
      intros [|fuel] ?; [lia|]. simpl. rewrite Hs, Hi, Htable.
      rewrite Hrun1 by lia. simpl. apply Hrun2. lia.
Qed.

Lemma handler_ids_singleton s st :
  handler_ids [(s, st)] = elements (event_handler_ids st).
Proof. unfold handler_ids. simpl. apply app_nil_r. Qed.

Lemma handler_ids_cons n ns :
  handler_ids (n :: ns) = elements (event_handler_ids n.2) ++ handler_ids ns.
Proof. done. Qed.

Lemma unmount_element_state_spec t : unmounts t.
Proof.
  induction t as [s st children IH] using mounted_ind_forest.
  intros w Hshape Hdist. inversion Hshape as [? ? ? Hs Hid Hch Hall]; subst.
  change (nodes (Mounted s st children)) with ([(s, st)] ++ (children ≫= nodes)) in *.
  destruct (distinct_app _ _ _ Hdist) as (Hd1 & Hdf & Hrefs & Hids & Hhids).
  set (w1 := element_will_unmount (life_cycle_hook st) w).
  destruct (del_event_handlers_spec (elements (event_handler_ids st)) w1)
    as (table & Hdel & Htable).
  { apply NoDup_elements. }
  { intros i Hi. apply (handlers_registered _ _ Hd1). by rewrite handler_ids_singleton. }
  set (w2 := set_event_handlers (λ _, table) w1) in *.
  set (w3 := set_heap (alter (with_event_handler_ids ∅) s) w2).
  assert (s ∉ refs (children ≫= nodes)) as Hs_out.
  { apply Hrefs. simpl. by left. }
  destruct (unmount_children_from_spec children IH w3 s (with_event_handler_ids ∅ st) 0)
    as (n & w4 & Hun & Hrun).
  { simpl. by rewrite lookup_alter_eq, Hs. }
  { done. }
  { done. }
  { rewrite Forall_forall in Hall. apply Forall_forall. intros t Ht.
    apply (shape_frame w); [by apply Hall| |done].
    intros s' Hs'. simpl. rewrite lookup_alter_ne; [done|]. intros <-.
    apply Hs_out. unfold refs in *. apply list_elem_of_fmap in Hs' as (n & -> & Hn).
    apply list_elem_of_fmap. exists n. split; [done|]. by eapply elem_of_nodes_child. }
  { destruct Hdf as [? ? ? ? Hreg]. split; try done. intros i Hi. simpl.
    rewrite Htable, decide_False; [by apply Hreg|].
    intros Hin. apply (Hhids i); [|done]. by rewrite handler_ids_singleton. }
  set (w5 := set_heap (alter (with_child_elements_ids []) s) w4).
  assert (_element_states w5 !! id (element_obj st) = Some s) as Hmounted.
  { simpl. rewrite (un_element_states _ _ _ Hun), decide_False; [done|].
    apply Hids. simpl. by left. }
  exists (S (S n)), (set_element_states (delete (id (element_obj st))) w5). split.
  - destruct Hun as [R Q O K N T H E P]. split; simpl; try done.
    + rewrite T. simpl. by rewrite <-(assoc_L (++)).
    + intros i. rewrite H. simpl. rewrite Htable.
      repeat case_decide; try done; set_solver.
    + intros x. rewrite lookup_delete. rewrite E. simpl.
      repeat case_decide; try done; set_solver.
    + intros s'. destruct (decide (s = s')) as [<-|Hne].
      * rewrite lookup_alter_eq, P, decide_False by done. simpl.
        rewrite lookup_alter_eq, Hs, decide_True by (by left). done.
      * rewrite lookup_alter_ne, P by done. simpl. rewrite lookup_alter_ne by done.
        repeat case_decide; try done; set_solver.
  - intros [|[|fuel]] ?; [lia|lia|]. cbn [root_ref].
    change (_unmount_element_state (S (S fuel)) s w)
      with (match heap w !! s with
            | None => Raised (DanglingRef s) w
            | Some element_state =>
                let w := element_will_unmount (life_cycle_hook element_state) w in
                let! _, w := _clear_element_state_event_handlers s w in
                let! _, w := _unmount_element_state_children (S fuel) s w in
                let e_id := id (element_obj element_state) in
                match _element_states w !! e_id with
                | None => Raised (KeyError e_id) w
                | Some _ => Ok tt (set_element_states (delete e_id) w)
                end
            end).
    rewrite Hs. cbv zeta. fold w1.
    unfold _clear_element_state_event_handlers.
    replace (heap w1 !! s) with (Some st) by done.
    rewrite Hdel. cbn [bind]. fold w2. fold w3.
    cbn [_unmount_element_state_children]. rewrite Hrun by lia. cbn [bind]. fold w5.
    by rewrite Hmounted.
Qed.

(** More fuel does not change what a call does once it has enough. *)
Lemma bind_fuel {A B} (r r' : result A) (k k' : A → World → result B) :
  (r ≠ OutOfFuel → r' = r) →
  (∀ a w, k a w ≠ OutOfFuel → k' a w = k a w) →
  bind r k ≠ OutOfFuel → bind r' k' = bind r k.
Proof.
  intros Hr Hk. destruct r as [a w|e w|]; simpl; intros Hne; [| |done].
  - rewrite Hr by done. simpl. by apply Hk.
  - by rewrite Hr.
Qed.

Lemma unmount_fuel_S fuel :
  (∀ s w, _unmount_element_state fuel s w ≠ OutOfFuel →
          _unmount_element_state (S fuel) s w = _unmount_element_state fuel s w)
  ∧ (∀ s w, _unmount_element_state_children fuel s w ≠ OutOfFuel →
            _unmount_element_state_children (S fuel) s w
            = _unmount_element_state_children fuel s w)
  ∧ (∀ s i w, unmount_children_from fuel s i w ≠ OutOfFuel →
              unmount_children_from (S fuel) s i w = unmount_children_from fuel s i w).
Proof.
  induction fuel as [|fuel (IHu & IHc & IHl)]; [by repeat split|].
  split; [|split].
  - intros s w. simpl. destruct (heap w !! s) as [st|]; [|done].
    apply bind_fuel; [done|]. intros _ w1. apply bind_fuel; [apply IHc|done].
  - intros s w. simpl. apply bind_fuel; [apply IHl|done].
  - intros s i w. simpl. destruct (heap w !! s) as [st|]; [|done].
    destruct (child_elements_ids st !! i) as [e_id|]; [|done].
    destruct (_element_states w !! e_id) as [child|]; [|done].
    apply bind_fuel; [apply IHu|]. intros _ w1. apply IHl.
Qed.

Lemma unmount_fuel_le fuel fuel' s w :
  fuel ≤ fuel' →
  _unmount_element_state fuel s w ≠ OutOfFuel →
  _unmount_element_state fuel' s w = _unmount_element_state fuel s w.
Proof.
  induction 1 as [|fuel' _ IH]; [done|]. intros Hne.
  rewrite <-IH by done. apply unmount_fuel_S. by rewrite IH.
Qed.

Lemma unmount_children_fuel_le fuel fuel' s w :
  fuel ≤ fuel' →
  _unmount_element_state_children fuel s w ≠ OutOfFuel →
  _unmount_element_state_children fuel' s w = _unmount_element_state_children fuel s w.
Proof.
  induction 1 as [|fuel' _ IH]; [done|]. intros Hne.
  rewrite <-IH by done. apply unmount_fuel_S. by rewrite IH.
Qed.

(** The states of a subtree that the world holds are in its store. *)
Lemma shape_nodes w t s st :
  shape w t → (s, st) ∈ nodes t →
  heap w !! s = Some st ∧ _element_states w !! id (element_obj st) = Some s.
Proof.
  induction t as [s0 st0 children IH] using mounted_ind_forest.
  intros Hshape Hin. inversion Hshape as [? ? ? Hs Hid Hch Hall]; subst.
  simpl in Hin. apply elem_of_cons in Hin as [[= -> ->]|Hin]; [done|].
  apply list_elem_of_bind in Hin as (t & Hn & Ht).
  rewrite Forall_forall in IH. rewrite Forall_forall in Hall. by apply (IH t); [|apply Hall|].
Qed.

Lemma filter_eq_not_elem_of {A} `{EqDecision A} (x : A) (l : list A) :
  x ∉ l → filter (λ y, y = x) l = [].
Proof.
  induction l as [|y l IH]; [done|]. intros Hx.
  apply not_elem_of_cons in Hx as [? ?].
  rewrite filter_cons_False by done. by apply IH.
Qed.

Lemma filter_eq_NoDup {A} `{EqDecision A} (x : A) (l : list A) :
  NoDup l → x ∈ l → length (filter (λ y, y = x) l) = 1.
Proof.
  induction 1 as [|y l Hy Hnd IH]; [by intros ?%elem_of_nil|].
  intros [->|Hin]%elem_of_cons.
  - rewrite filter_cons_True by done. simpl. by rewrite filter_eq_not_elem_of.
  - rewrite filter_cons_False; [by apply IH|]. intros ->. done.
Qed.

Lemma distinct_checked w ns :
  NoDup (refs ns) → NoDup (element_ids ns) → NoDup (hooks ns) →
  NoDup (handler_ids ns) →
  Forall (λ i, is_Some (_event_handlers w !! i)) (handler_ids ns) →
  distinct w ns.
Proof. intros ? ? ? ? Hreg. split; try done. by apply Forall_forall. Qed.

Section unmounting.
Context (host : Host).

(** X1.  Unmounting the state at the root of a well mounted subtree returns,
    given enough fuel.  The hooks of the states of the subtree are told
    [element_will_unmount], parents before children and each exactly once;
    the handlers that these states own are out of the table of handlers and
    the states are out of the table of states, while every other entry of
    the two tables is as it was; each state of the subtree is left with no
    handler ids and no children. *)
Theorem unmount_removes_subtree w t :
  well_mounted w t →
  ∃ fuel0 w',
    (∀ fuel, fuel0 ≤ fuel → _unmount_element_state fuel (root_ref t) w = Ok tt w')
    ∧ trace w' = trace w ++ (WillUnmount <$> hooks (nodes t))
    ∧ (∀ n, n ∈ nodes t →
         length (filter (λ ev, ev = WillUnmount (life_cycle_hook n.2))
                        (WillUnmount <$> hooks (nodes t))) = 1)
    ∧ (∀ i, i ∈ handler_ids (nodes t) → _event_handlers w' !! i = None)
    ∧ (∀ i, i ∉ handler_ids (nodes t) → _event_handlers w' !! i = _event_handlers w !! i)
    ∧ (∀ x, x ∈ element_ids (nodes t) → _element_states w' !! x = None)
    ∧ (∀ x, x ∉ element_ids (nodes t) → _element_states w' !! x = _element_states w !! x)
    ∧ (∀ n, n ∈ nodes t → heap w' !! n.1 = Some (cleared n.2)).
Proof.
  intros [Hshape Hdist].
  destruct (unmount_element_state_spec t w Hshape Hdist) as (n & w' & Hun & Hrun).
  exists n, w'. split; [done|]. split; [apply Hun|]. split.
  { intros [s st] Hin. apply filter_eq_NoDup.
    - assert (Inj (=) (=) WillUnmount) by (by intros ? ? [= ->]).
      apply (NoDup_fmap_2 _). apply Hdist.
    - apply list_elem_of_fmap. eexists. split; [done|].
      unfold hooks. apply list_elem_of_fmap. by exists (s, st). }
  split.
  { intros i Hi. by rewrite (un_event_handlers _ _ _ Hun), decide_True. }
  split.
  { intros i Hi. by rewrite (un_event_handlers _ _ _ Hun), decide_False. }
  split.
  { intros x Hx. by rewrite (un_element_states _ _ _ Hun), decide_True. }
  split.
  { intros x Hx. by rewrite (un_element_states _ _ _ Hun), decide_False. }
  intros [s st] Hin. simpl.
  rewrite (un_heap _ _ _ Hun), decide_True.
  - by rewrite (proj1 (shape_nodes w t s st Hshape Hin)).
  - unfold refs. apply list_elem_of_fmap. by exists (s, st).
Qed.

(** X2.  An event for a handler of a state that has been unmounted, alone or
    with the subtree above it, is ignored: [trigger] returns and changes
    nothing, whatever the handlers of the host do. *)
Theorem trigger_after_unmount w t fuel w' i data :
  well_mounted w t →
  i ∈ handler_ids (nodes t) →
  _unmount_element_state fuel (root_ref t) w = Ok tt w' →
  trigger host (mkLayoutEvent i data) w' = Ok tt w'.
Proof.
  intros [Hshape Hdist] Hi Hrun.
  destruct (unmount_element_state_spec t w Hshape Hdist) as (n & w1 & Hun & Hrun1).
  assert (w1 = w') as ->.
  { specialize (Hrun1 (n `max` fuel) ltac:(lia)).
    rewrite (unmount_fuel_le fuel) in Hrun1; [congruence|lia|]. by rewrite Hrun. }
  unfold trigger. simpl.
  by rewrite (un_event_handlers _ _ _ Hun), decide_True.
Qed.

(** X3.  Leaving the [_element_states] resource unmounts the root.  When
    every state in the table belongs to the well mounted tree of the root,
    the table is empty afterwards; and when every registered handler is
    owned by a state of that tree, so is the table of handlers. *)
Theorem teardown_empties_tables w t :
  well_mounted w t →
  (∀ x, is_Some (_element_states w !! x) → x ∈ element_ids (nodes t)) →
  ∃ fuel0 w',
    (∀ fuel, fuel0 ≤ fuel → _element_states_exit fuel (root_ref t) w = Ok tt w')
    ∧ _element_states w' = ∅
    ∧ ((∀ i, is_Some (_event_handlers w !! i) → i ∈ handler_ids (nodes t)) →
       _event_handlers w' = ∅).
Proof.
  intros [Hshape Hdist] Hall.
  destruct (unmount_element_state_spec t w Hshape Hdist) as (n & w' & Hun & Hrun).
  exists n, w'. split; [done|]. split.
  - apply map_eq. intros x. rewrite lookup_empty, (un_element_states _ _ _ Hun).
    case_decide as Hx; [done|]. destruct (_element_states w !! x) eqn:E; [|done].
    destruct Hx. apply Hall. by rewrite E.
  - intros Hown. apply map_eq. intros i.
    rewrite lookup_empty, (un_event_handlers _ _ _ Hun).
    case_decide as Hi; [done|]. destruct (_event_handlers w !! i) eqn:E; [|done].
    destruct Hi. apply Hown. by rewrite E.
Qed.
End unmounting.

Lemma del_event_handlers_missing ids w i :
  NoDup ids → i ∈ ids → _event_handlers w !! i = None →
  ∃ k table,
    del_event_handlers ids w = Raised (KeyError k) (set_event_handlers (λ _, table) w)
    ∧ k ∈ ids ∧ _event_handlers w !! k = None
    ∧ table ⊆ _event_handlers w.
Proof.
  revert w. induction ids as [|j ids IH]; intros w Hnd Hi Hnone;
    [by apply elem_of_nil in Hi|]. cbn [del_event_handlers].
  apply NoDup_cons in Hnd as [Hj Hnd].
  destruct (_event_handlers w !! j) as [h|] eqn:Hh.
  - apply elem_of_cons in Hi as [->|Hi]; [congruence|].
    destruct (IH (set_event_handlers (delete j) w) Hnd Hi) as (k & table & -> & Hk & Hknone & Hsub).
    { simpl. rewrite lookup_delete_ne; [done|]. by intros ->. }
    exists k, table. split; [done|]. split; [by right|]. simpl in *. split.
    + rewrite lookup_delete_ne in Hknone; [done|]. by intros ->.
    + etrans; [exact Hsub|]. apply delete_subseteq.
  - exists j, (_event_handlers w). split; [by destruct w|]. split; [by left|]. done.
Qed.

(** X4.  When a state owns a handler id that is not in the table of
    handlers, clearing its handlers raises [KeyError] for an id of the state
    that the table lacks.  The ids of the state are then not cleared, and
    the table has lost at most entries. *)
Theorem clear_event_handlers_missing s st i w :
  heap w !! s = Some st →
  i ∈ event_handler_ids st →
  _event_handlers w !! i = None →
  ∃ k w',
    _clear_element_state_event_handlers s w = Raised (KeyError k) w'
    ∧ k ∈ event_handler_ids st ∧ _event_handlers w !! k = None
    ∧ heap w' = heap w
    ∧ _element_states w' = _element_states w
    ∧ _event_handlers w' ⊆ _event_handlers w.
Proof.
  intros Hs Hi Hnone. unfold _clear_element_state_event_handlers. rewrite Hs.
  destruct (del_event_handlers_missing (elements (event_handler_ids st)) w i)
    as (k & table & -> & Hk & Hknone & Hsub); [apply NoDup_elements|by apply elem_of_elements|done|].
  eexists k, _. split; [done|]. split; [by apply elem_of_elements|]. done.
Qed.

(** The equations of the three functions of the unmount. *)
Lemma unmount_element_state_children_S fuel s w :
  _unmount_element_state_children (S fuel) s w
  = let! _, w := unmount_children_from fuel s 0 w in
    Ok tt (set_heap (alter (with_child_elements_ids []) s) w).
Proof. done. Qed.

Lemma unmount_children_from_S fuel s i w :
  unmount_children_from (S fuel) s i w
  = match heap w !! s with
    | None => Raised (DanglingRef s) w
    | Some element_state =>
        match child_elements_ids element_state !! i with
        | None => Ok tt w
        | Some e_id =>
            match _element_states w !! e_id with
            | None => Raised (KeyError e_id) w
            | Some child =>
                let! _, w := _unmount_element_state fuel child w in
                unmount_children_from fuel s (S i) w
            end
        end
    end.
Proof. done. Qed.

(** X5.  A state that names the same child twice among its children: the
    loop unmounts the subtree of the child when it first meets it, and
    raises [KeyError] for its id when it meets it again; the list of
    children is not cleared. *)
Theorem unmount_children_twice s parent t rest w :
  heap w !! s = Some parent →
  child_elements_ids parent = root_id t :: root_id t :: rest →
  well_mounted w t →
  s ∉ refs (nodes t) →
  ∃ fuel0 w',
    (∀ fuel, fuel0 ≤ fuel →
       _unmount_element_state_children fuel s w = Raised (KeyError (root_id t)) w')
    ∧ unmounted (nodes t) w w'
    ∧ heap w' !! s = Some parent.
Proof.
  intros Hs Hch [Hshape Hdist] Hnotin.
  destruct (unmount_element_state_spec t w Hshape Hdist) as (n & w' & Hun & Hrun).
  assert (heap w' !! s = Some parent) as Hs'.
  { by rewrite (un_heap _ _ _ Hun), decide_False. }
  exists (S (S (S n))), w'. split; [|done].
  intros [|[|[|fuel]]] ?; try lia.
  rewrite unmount_element_state_children_S, unmount_children_from_S, Hs, Hch.
  change ((root_id t :: root_id t :: rest) !! 0) with (Some (root_id t)).
  cbv beta iota.
  assert (_element_states w !! root_id t = Some (root_ref t)) as -> by (by inversion Hshape).
  rewrite Hrun by lia. cbn [bind].
  rewrite unmount_children_from_S, Hs', Hch.
  change ((root_id t :: root_id t :: rest) !! 1) with (Some (root_id t)).
  cbv beta iota.
  rewrite (un_element_states _ _ _ Hun), decide_True; [done|].
  destruct t as [s0 st0 cs]. simpl. by left.
Qed.

Lemma family_well_mounted : well_mounted Examples.mounted_family Examples.family_tree.
Proof.
  split.
  - constructor; [vm_compute; reflexivity..|].
    constructor; [|constructor].
    constructor; [vm_compute; reflexivity..|constructor].
  - apply distinct_checked; apply (bool_decide_unpack _); vm_compute; reflexivity.
Qed.

Lemma unmount_removes_subtree_witness :
  ∃ fuel0 w', ∀ fuel, fuel0 ≤ fuel →
    _unmount_element_state fuel 1 Examples.mounted_family = Ok tt w'.
Proof.
  destruct (unmount_removes_subtree Examples.mounted_family Examples.family_tree
              family_well_mounted) as (fuel0 & w' & Hrun & _).
  exists fuel0, w'. exact Hrun.
Defined.

Lemma trigger_after_unmount_witness :
  trigger Examples.failing_host (mkLayoutEvent "4" []) Examples.unmounted_family
  = Ok tt Examples.unmounted_family.
Proof.
  apply (trigger_after_unmount Examples.failing_host Examples.mounted_family
           Examples.family_tree 10 Examples.unmounted_family "4" [] family_well_mounted).
  - apply (bool_decide_unpack _). vm_compute. reflexivity.
  - vm_compute. reflexivity.
Defined.

Lemma teardown_empties_tables_witness :
  ∃ fuel0 w',
    (∀ fuel, fuel0 ≤ fuel →
       _element_states_exit fuel 1 Examples.mounted_family = Ok tt w')
    ∧ _element_states w' = ∅.
Proof.
  destruct (teardown_empties_tables Examples.mounted_family Examples.family_tree
              family_well_mounted) as (fuel0 & w' & Hrun & Hempty & _).
  - intros x [s Hx]. revert x s Hx. apply map_Forall_lookup.
    apply (bool_decide_unpack _). vm_compute. reflexivity.
  - exists fuel0, w'. split; assumption.
Defined.

Lemma clear_event_handlers_missing_witness :
  ∃ k w',
    _clear_element_state_event_handlers 3
      (set_event_handlers (delete "4") Examples.mounted_family)
    = Raised (KeyError k) w'.
Proof.
  destruct (clear_event_handlers_missing 3 Examples.family_child_state "4"
              (set_event_handlers (delete "4") Examples.mounted_family))
    as (k & w' & Hrun & _).
  - vm_compute. reflexivity.
  - apply (bool_decide_unpack _). vm_compute. reflexivity.
  - vm_compute. reflexivity.
  - exists k, w'. exact Hrun.
Defined.

Lemma unmount_children_twice_witness :
  ∃ fuel0 w', ∀ fuel, fuel0 ≤ fuel →
    _unmount_element_state_children fuel 1 Examples.mounted_twins
    = Raised (KeyError "child") w'.
Proof.
  destruct (unmount_children_twice 1 Examples.twins_root_state
              (Mounted 3 Examples.twins_child_state []) [] Examples.mounted_twins)
    as (fuel0 & w' & Hrun & _).
  - vm_compute. reflexivity.
  - vm_compute. reflexivity.
  - split.
    + constructor; [vm_compute; reflexivity..|constructor].
    + apply distinct_checked; apply (bool_decide_unpack _); vm_compute; reflexivity.
  - apply (bool_decide_unpack _). vm_compute. reflexivity.
  - exists fuel0, w'. exact Hrun.
Defined.
